(** * drcachesim scheduler launcher and drpt2trace: a shallow embedding

    The development embeds two programs of the repository:

    - [clients/drcachesim/tests/scheduler_launcher.cpp] (module [Launcher]):
      the option block, [simulate_core], and [_tmain] with its consumer
      threads, as a small-step machine over an explicit interleaving;
    - [clients/drcachesim/drpt2trace/drpt2trace.cpp] (module [Drpt2trace]):
      the loop of [main] that walks the PT data buffers of a DRMEMTRACE
      format file, over 64-bit wrap-around arithmetic.

    The launcher is a client of [scheduler_t], whose implementation is not
    part of the sources at hand; module [Scheduler] holds the declarations
    the launcher names and a model of the scheduler written from its design
    document. *)

From stdpp Require Import base option list strings.
From Stdlib Require Import ZArith Lia Strings.Byte.

(** [std::string::empty]. *)
Definition empty (s : string) : bool :=
  match s with
  | EmptyString => true
  | String _ _ => false
  end.

(* ===================================================================== *)
(** * The scheduler                                                       *)
(* ===================================================================== *)

Module Scheduler.

(** ** Declarations named by the launcher *)

(** Modelled from the spec: the kinds of record the design document names
    (instruction fetch, data access, marker); memref.h is not among the
    sources and the launcher reads [record.instr.tid] only. *)
Inductive memref_kind := MEMREF_INSTR | MEMREF_DATA | MEMREF_MARKER.

(** Modelled from the spec: the fields of [memref_t] (memref.h) that the
    launcher and the design use: thread, kind, timestamp and an opaque
    payload. *)
Record memref_t := {
  tid : Z;
  kind : memref_kind;
  timestamp : option Z;
  payload : Z
}.

(** Modelled from the spec: [scheduler_t::mapping_t], the enumerators the
    launcher uses. *)
Inductive mapping_t :=
  | MAP_TO_ANY_OUTPUT
  | MAP_AS_PREVIOUSLY
  | MAP_TO_RECORDED_OUTPUT.

(** Modelled from the spec: [scheduler_t::inter_input_dependency_t]. *)
Inductive inter_input_dependency_t :=
  | DEPENDENCY_IGNORE
  | DEPENDENCY_TIMESTAMPS.

(** Modelled from the spec: [scheduler_t::scheduler_flags_t]. *)
Inductive scheduler_flags_t := SCHEDULER_DEFAULTS.

(** Modelled from the spec: [scheduler_t::scheduler_status_t]:
    [STATUS_SUCCESS] is the one value the launcher compares with;
    [STATUS_ERROR] stands for every other enumerator, with its integer value. *)
Inductive scheduler_status_t :=
  | STATUS_SUCCESS
  | STATUS_ERROR (code : Z).

(** Modelled from the spec: [scheduler_t::stream_status_t]: the launcher names
    [STATUS_OK], [STATUS_EOF] and [STATUS_WAIT]; [STATUS_OTHER] stands for
    every other enumerator, with its integer value. *)
Inductive stream_status_t :=
  | STATUS_OK
  | STATUS_EOF
  | STATUS_WAIT
  | STATUS_OTHER (code : Z).

#[global] Instance mapping_eq_dec : EqDecision mapping_t.
Proof. solve_decision. Defined.
#[global] Instance deps_eq_dec : EqDecision inter_input_dependency_t.
Proof. solve_decision. Defined.
#[global] Instance scheduler_status_eq_dec : EqDecision scheduler_status_t.
Proof. solve_decision. Defined.
#[global] Instance stream_status_eq_dec : EqDecision stream_status_t.
Proof. solve_decision. Defined.

(** Modelled from the spec: one Schedule Entry: (output ordinal, input
    identifier, starting record ordinal, starting timestamp, duration in
    records). *)
Record schedule_entry := {
  se_output : nat;
  se_input : nat;
  se_start_ordinal : nat;
  se_start_timestamp : Z;
  se_duration : nat
}.

(** Modelled from the spec: one tuple of an as-traced hardware schedule file:
    (core ordinal, thread identifier, duration, starting timestamp). *)
Record as_traced_entry := {
  at_core : nat;
  at_tid : Z;
  at_duration : nat;
  at_start_timestamp : Z
}.

(** Modelled from the spec: [zipfile_ostream_t] and [zipfile_istream_t],
    opened on a path.  What an input archive holds is either a well-formed
    sequence of entries or nothing usable. *)
Record ostream_t := { os_path : string }.

(** Modelled from the spec: [zipfile_istream_t], opened on a path, with the
    content the scheduler reads from it. *)
Record istream_t (A : Type) := {
  is_path : string;
  is_entries : option (list A)
}.
Arguments is_path {A} _.
Arguments is_entries {A} _.

(** Modelled from the spec: [scheduler_t::scheduler_options_t] is declared in
    scheduler.h, which is not among the sources.  The fields are the ones
    the launcher assigns; the three stream handles are optional and unset
    unless assigned, and [tolerance] is the Dependency Resolver's bound,
    which the design document asks to expose as a configuration value. *)
Record scheduler_options_t := {
  mapping : mapping_t;
  deps : inter_input_dependency_t;
  flags : scheduler_flags_t;
  verbosity : Z;
  quantum_duration : Z;
  tolerance : Z;
  schedule_record_ostream : option ostream_t;
  schedule_replay_istream : option (istream_t schedule_entry);
  replay_as_traced_istream : option (istream_t as_traced_entry)
}.

(** Modelled from the spec: the four-argument constructor the launcher calls:
    every other field keeps its default. *)
Definition make_scheduler_options (m : mapping_t) (d : inter_input_dependency_t)
    (f : scheduler_flags_t) (v : Z) : scheduler_options_t :=
  {| mapping := m; deps := d; flags := f; verbosity := v;
     quantum_duration := 0; tolerance := 0;
     schedule_record_ostream := None;
     schedule_replay_istream := None;
     replay_as_traced_istream := None |}.

(** Modelled from the spec: assignments to single fields of the options. *)
Definition with_mapping (ops : scheduler_options_t) (m : mapping_t)
    : scheduler_options_t :=
  {| mapping := m; deps := deps ops; flags := flags ops;
     verbosity := verbosity ops; quantum_duration := quantum_duration ops;
     tolerance := tolerance ops;
     schedule_record_ostream := schedule_record_ostream ops;
     schedule_replay_istream := schedule_replay_istream ops;
     replay_as_traced_istream := replay_as_traced_istream ops |}.

(** Modelled from the spec: assignment to [deps]. *)
Definition with_deps (ops : scheduler_options_t)
    (d : inter_input_dependency_t) : scheduler_options_t :=
  {| mapping := mapping ops; deps := d; flags := flags ops;
     verbosity := verbosity ops; quantum_duration := quantum_duration ops;
     tolerance := tolerance ops;
     schedule_record_ostream := schedule_record_ostream ops;
     schedule_replay_istream := schedule_replay_istream ops;
     replay_as_traced_istream := replay_as_traced_istream ops |}.

(** Modelled from the spec: assignment to [quantum_duration]. *)
Definition with_quantum_duration (ops : scheduler_options_t) (q : Z)
    : scheduler_options_t :=
  {| mapping := mapping ops; deps := deps ops; flags := flags ops;
     verbosity := verbosity ops; quantum_duration := q;
     tolerance := tolerance ops;
     schedule_record_ostream := schedule_record_ostream ops;
     schedule_replay_istream := schedule_replay_istream ops;
     replay_as_traced_istream := replay_as_traced_istream ops |}.

(** Modelled from the spec: assignment to [schedule_record_ostream]. *)
Definition with_record_ostream (ops : scheduler_options_t)
    (f : option ostream_t) : scheduler_options_t :=
  {| mapping := mapping ops; deps := deps ops; flags := flags ops;
     verbosity := verbosity ops; quantum_duration := quantum_duration ops;
     tolerance := tolerance ops;
     schedule_record_ostream := f;
     schedule_replay_istream := schedule_replay_istream ops;
     replay_as_traced_istream := replay_as_traced_istream ops |}.

(** Modelled from the spec: assignment to [schedule_replay_istream]. *)
Definition with_replay_istream (ops : scheduler_options_t)
    (f : option (istream_t schedule_entry)) : scheduler_options_t :=
  {| mapping := mapping ops; deps := deps ops; flags := flags ops;
     verbosity := verbosity ops; quantum_duration := quantum_duration ops;
     tolerance := tolerance ops;
     schedule_record_ostream := schedule_record_ostream ops;
     schedule_replay_istream := f;
     replay_as_traced_istream := replay_as_traced_istream ops |}.

(** Modelled from the spec: assignment to [replay_as_traced_istream]. *)
Definition with_as_traced_istream (ops : scheduler_options_t)
    (f : option (istream_t as_traced_entry)) : scheduler_options_t :=
  {| mapping := mapping ops; deps := deps ops; flags := flags ops;
     verbosity := verbosity ops; quantum_duration := quantum_duration ops;
     tolerance := tolerance ops;
     schedule_record_ostream := schedule_record_ostream ops;
     schedule_replay_istream := schedule_replay_istream ops;
     replay_as_traced_istream := f |}.


(** Modelled from the spec: one Record Stream (the records of one traced
    thread) and one Input Workload (what a trace directory holds). *)
Record record_stream := {
  rs_tid : Z;
  rs_records : list memref_t
}.

(** Modelled from the spec: one Input Workload of section 3: a path and the
    Record Streams found under it. *)
Record input_workload_t := {
  wl_path : string;
  wl_streams : list record_stream
}.

(** ** Data model of the scheduler *)

(** Modelled from the spec: the Input Stream of section 3 (scheduler.cpp is
    not among the sources): the records not yet consumed and the current
    position.  The liveness flag is derived ([input_exhausted],
    [input_blocked]). *)
Record input_info := {
  in_tid : Z;
  in_rest : list memref_t;
  in_record_ordinal : nat;
  in_instr_ordinal : nat;
  in_last_timestamp : Z
}.

(** Modelled from the spec: the Output Stream of section 3: the assigned
    input, where its current run started, what the run consumed so far (the
    Quantum Controller's accumulator), the duration a replayed entry grants,
    and the cumulative work counters. *)
Record output_info := {
  out_input : option nat;
  out_run_start_ordinal : nat;
  out_run_start_timestamp : Z;
  out_run_records : nat;
  out_run_instrs : Z;
  out_run_limit : option nat;
  out_record_ordinal : nat;
  out_instr_ordinal : nat
}.

(** Modelled from the spec: the state the scheduler owns: the immutable
    configuration, the inputs, the outputs, the Schedule Recorder's log,
    the Schedule Replayer's unread entries, and the failure that is fatal
    for the whole scheduler. *)
Record state := {
  st_options : scheduler_options_t;
  st_inputs : list input_info;
  st_outputs : list output_info;
  st_log : list schedule_entry;
  st_replay : list schedule_entry;
  st_error : option string
}.

(** Modelled from the spec: update of the Input Streams of the state. *)
Definition set_inputs (s : state) (ins : list input_info) : state :=
  {| st_options := st_options s; st_inputs := ins; st_outputs := st_outputs s;
     st_log := st_log s; st_replay := st_replay s; st_error := st_error s |}.

(** Modelled from the spec: update of the Output Streams of the state. *)
Definition set_outputs (s : state) (outs : list output_info) : state :=
  {| st_options := st_options s; st_inputs := st_inputs s; st_outputs := outs;
     st_log := st_log s; st_replay := st_replay s; st_error := st_error s |}.

(** Modelled from the spec: update of the Schedule Record. *)
Definition set_log (s : state) (l : list schedule_entry) : state :=
  {| st_options := st_options s; st_inputs := st_inputs s;
     st_outputs := st_outputs s;
     st_log := l; st_replay := st_replay s; st_error := st_error s |}.

(** Modelled from the spec: update of the entries still to replay. *)
Definition set_replay (s : state) (l : list schedule_entry) : state :=
  {| st_options := st_options s; st_inputs := st_inputs s;
     st_outputs := st_outputs s;
     st_log := st_log s; st_replay := l; st_error := st_error s |}.

(** Modelled from the spec: update of the error string. *)
Definition set_error (s : state) (msg : string) : state :=
  {| st_options := st_options s; st_inputs := st_inputs s;
     st_outputs := st_outputs s;
     st_log := st_log s; st_replay := st_replay s; st_error := Some msg |}.

(** ** Initialization *)

(** Modelled from the spec: an Input Stream at initialization: nothing
    consumed. *)
Definition new_input (rs : record_stream) : input_info :=
  {| in_tid := rs_tid rs; in_rest := rs_records rs;
     in_record_ordinal := 0; in_instr_ordinal := 0; in_last_timestamp := 0 |}.

(** Modelled from the spec: an Output Stream at initialization: no input
    assigned. *)
Definition idle_output : output_info :=
  {| out_input := None; out_run_start_ordinal := 0;
     out_run_start_timestamp := 0; out_run_records := 0; out_run_instrs := 0;
     out_run_limit := None; out_record_ordinal := 0; out_instr_ordinal := 0 |}.

(** Modelled from the spec: whether an optional handle of the options is
    set. *)
Definition is_set {A : Type} (h : option A) : bool :=
  match h with Some _ => true | None => false end.

(** Modelled from the spec: how many of the three persistence handles are
    set. *)
Definition handles_set (ops : scheduler_options_t) : nat :=
  (if is_set (schedule_record_ostream ops) then 1 else 0) +
  (if is_set (schedule_replay_istream ops) then 1 else 0) +
  (if is_set (replay_as_traced_istream ops) then 1 else 0).

(** Modelled from the spec: a configuration is self-contradictory when more
    than one persistence handle is set, or when a replay mapping comes
    without its log or a log without its mapping. *)
Definition contradictory (ops : scheduler_options_t) : bool :=
  (1 <? handles_set ops)%nat ||
  match mapping ops with
  | MAP_AS_PREVIOUSLY => negb (is_set (schedule_replay_istream ops))
  | MAP_TO_RECORDED_OUTPUT =>
      is_set (schedule_replay_istream ops) ||
      negb (is_set (replay_as_traced_istream ops))
  | MAP_TO_ANY_OUTPUT =>
      is_set (schedule_replay_istream ops) ||
      is_set (replay_as_traced_istream ops)
  end.

(** Modelled from the spec: the input that carries a thread identifier. *)
Fixpoint find_tid (t : Z) (ins : list input_info) : option nat :=
  match ins with
  | [] => None
  | i :: rest => if (in_tid i =? t)%Z then Some 0%nat
                 else S <$> find_tid t rest
  end.

(** Modelled from the spec: an as-traced tuple names its input by thread
    identifier; the entry it stands for names it by index. *)
Definition resolve_as_traced (ins : list input_info) (e : as_traced_entry)
    : option schedule_entry :=
  j ← find_tid (at_tid e) ins;
  Some {| se_output := at_core e; se_input := j; se_start_ordinal := 0;
          se_start_timestamp := at_start_timestamp e;
          se_duration := at_duration e |}.

(** Modelled from the spec: a usable entry names an existing output and an
    existing input and grants at least one record. *)
Definition entry_ok (cores inputs : nat) (e : schedule_entry) : bool :=
  (se_output e <? cores)%nat && (se_input e <? inputs)%nat &&
  (0 <? se_duration e)%nat.

(** Modelled from the spec: reading the configured replay log at
    initialization; [None] when it is malformed. *)
Definition load_replay (ops : scheduler_options_t) (cores : nat)
    (ins : list input_info) : option (list schedule_entry) :=
  match mapping ops with
  | MAP_TO_ANY_OUTPUT => Some []
  | MAP_AS_PREVIOUSLY =>
      match schedule_replay_istream ops with
      | None => None
      | Some f =>
          l ← is_entries f;
          if forallb (entry_ok cores (length ins)) l then Some l else None
      end
  | MAP_TO_RECORDED_OUTPUT =>
      match replay_as_traced_istream ops with
      | None => None
      | Some f =>
          l ← is_entries f;
          l' ← mapM (resolve_as_traced ins) l;
          if forallb (entry_ok cores (length ins)) l' then Some l' else None
      end
  end.

(** Modelled from the spec: [initialize(workloads, core_count,
    configuration)] of section 4.1 (scheduler.cpp is not among the
    sources).  It fails if core_count <= 0, if the configuration is
    self-contradictory, if any workload has zero streams, or if a replay
    log is malformed; on success exactly [core_count] Output Streams exist,
    unassigned. *)
Definition init (workloads : list input_workload_t) (core_count : Z)
    (ops : scheduler_options_t) : string + state :=
  if (core_count <=? 0)%Z then inl "core_count must be positive"
  else if contradictory ops then inl "self-contradictory configuration"
  else if existsb (fun w => bool_decide (wl_streams w = [])) workloads
  then inl "workload without streams"
  else
    let ins := new_input <$> concat (wl_streams <$> workloads) in
    match load_replay ops (Z.to_nat core_count) ins with
    | None => inl "malformed replay log"
    | Some l =>
        inr {| st_options := ops; st_inputs := ins;
               st_outputs := replicate (Z.to_nat core_count) idle_output;
               st_log := []; st_replay := l; st_error := None |}
    end.

(** ** Pulling a record *)

(** Modelled from the spec: what [pull] hands back: a record, [wait],
    [exhausted] or [error]. *)
Inductive pull_result :=
  | PULL_RECORD (r : memref_t)
  | PULL_WAIT
  | PULL_EXHAUSTED
  | PULL_ERROR (msg : string).

(** Modelled from the spec: an Input Stream is exhausted when all its records
    have been consumed. *)
Definition input_exhausted (inp : input_info) : bool :=
  match in_rest inp with
  | [] => true
  | _ :: _ => false
  end.

(** Modelled from the spec: exhausted: every Input Stream has been fully
    consumed. *)
Definition all_exhausted (s : state) : bool :=
  forallb input_exhausted (st_inputs s).

(** Modelled from the spec: the next-available timestamp of an input: the one
    its next record carries, else the last one seen. *)
Definition next_timestamp (inp : input_info) : Z :=
  match in_rest inp with
  | r :: _ => default (in_last_timestamp inp) (timestamp r)
  | [] => in_last_timestamp inp
  end.

(** Modelled from the spec: invariant (b) is kept by never selecting an input
    some output holds. *)
Definition assigned (s : state) (j : nat) : bool :=
  existsb (fun out => bool_decide (out_input out = Some j)) (st_outputs s).

(** Modelled from the spec: the live inputs no output holds, by increasing
    index. *)
Definition unassigned_live (s : state) : list nat :=
  List.filter
    (fun j => match st_inputs s !! j with
              | Some inp => negb (input_exhausted inp) && negb (assigned s j)
              | None => false
              end)
    (seq 0 (length (st_inputs s))).

(** Modelled from the spec: the next-available timestamp of input [i], if it is
    live. *)
Definition timestamp_of (s : state) (j : nat) : Z :=
  match st_inputs s !! j with
  | Some inp => next_timestamp inp
  | None => 0
  end.

(** Modelled from the spec: the smallest next timestamp, ties going to the
    smallest index. *)
Definition min_timestamp_input (s : state) (l : list nat) : option nat :=
  foldl
    (fun best j =>
       match best with
       | None => Some j
       | Some b =>
           if (timestamp_of s j <? timestamp_of s b)%Z then Some j else Some b
       end)
    None l.

(** *** Dependency Resolver *)

(** Modelled from the spec: section 4.2.  With the timestamp-dependency
    mode on, an input is eligible only if its next timestamp is within the
    tolerance of the minimum over the live unassigned inputs; with the mode
    off every live unassigned input is eligible. *)
Definition eligible (s : state) (j : nat) : bool :=
  match deps (st_options s) with
  | DEPENDENCY_IGNORE => true
  | DEPENDENCY_TIMESTAMPS =>
      match min_timestamp_input s (unassigned_live s) with
      | None => true
      | Some m =>
          (timestamp_of s j <=? timestamp_of s m + tolerance (st_options s))%Z
      end
  end.

(** *** Quantum Controller *)

(** Modelled from the spec: section 4.3.  Preemption is signalled when the
    work accumulated since the assignment reaches the quantum; a zero or
    unset quantum disables it. *)
Definition quantum_expired (s : state) (out : output_info) : bool :=
  (0 <? quantum_duration (st_options s))%Z &&
  (quantum_duration (st_options s) <=? out_run_instrs out)%Z.

(** *** Recorder: closing a run *)

(** Modelled from the spec: the Schedule Entry of the run an output is in. *)
Definition run_entry (o i : nat) (out : output_info) : schedule_entry :=
  {| se_output := o; se_input := i;
     se_start_ordinal := out_run_start_ordinal out;
     se_start_timestamp := out_run_start_timestamp out;
     se_duration := out_run_records out |}.

(** Modelled from the spec: the output no longer holds an input. *)
Definition unassign (out : output_info) : output_info :=
  {| out_input := None; out_run_start_ordinal := 0;
     out_run_start_timestamp := 0; out_run_records := 0; out_run_instrs := 0;
     out_run_limit := None;
     out_record_ordinal := out_record_ordinal out;
     out_instr_ordinal := out_instr_ordinal out |}.

(** Modelled from the spec: a reassignment: the output gives its input up and
    the Schedule Recorder appends the entry of the contiguous run that ends. *)
Definition release (o : nat) (s : state) : state :=
  match st_outputs s !! o with
  | Some out =>
      match out_input out with
      | Some i =>
          set_log (set_outputs s (<[o := unassign out]> (st_outputs s)))
                  (st_log s ++ [run_entry o i out])
      | None => s
      end
  | None => s
  end.

(** Modelled from the spec: the output record of a run that starts. *)
Definition fresh_run (j : nat) (lim : option nat) (inp : input_info)
    (out : output_info) : output_info :=
  {| out_input := Some j;
     out_run_start_ordinal := in_record_ordinal inp;
     out_run_start_timestamp := next_timestamp inp;
     out_run_records := 0; out_run_instrs := 0;
     out_run_limit := lim;
     out_record_ordinal := out_record_ordinal out;
     out_instr_ordinal := out_instr_ordinal out |}.

(** Modelled from the spec: the output starts a run of input [j]. *)
Definition assign (o j : nat) (limit : option nat) (s : state) : state :=
  match st_outputs s !! o, st_inputs s !! j with
  | Some out, Some inp =>
      set_outputs s (<[o := fresh_run j limit inp out]> (st_outputs s))
  | _, _ => s
  end.

(** *** Handing one record over *)

(** Modelled from the spec: quanta and durations count instruction records. *)
Definition is_instr (r : memref_t) : bool :=
  match kind r with
  | MEMREF_INSTR => true
  | _ => false
  end.

(** Modelled from the spec: one more record of the input has been consumed. *)
Definition consume_input (inp : input_info) (r : memref_t)
    (rest : list memref_t) : input_info :=
  {| in_tid := in_tid inp; in_rest := rest;
     in_record_ordinal := S (in_record_ordinal inp);
     in_instr_ordinal :=
       if is_instr r then S (in_instr_ordinal inp) else in_instr_ordinal inp;
     in_last_timestamp := default (in_last_timestamp inp) (timestamp r) |}.

(** Modelled from the spec: one more record, and one more instruction if it is
    one, in the current run of the output. *)
Definition count_output (out : output_info) (r : memref_t) : output_info :=
  {| out_input := out_input out;
     out_run_start_ordinal := out_run_start_ordinal out;
     out_run_start_timestamp := out_run_start_timestamp out;
     out_run_records := S (out_run_records out);
     out_run_instrs :=
       if is_instr r then (out_run_instrs out + 1)%Z else out_run_instrs out;
     out_run_limit := out_run_limit out;
     out_record_ordinal := S (out_record_ordinal out);
     out_instr_ordinal :=
       if is_instr r then S (out_instr_ordinal out)
       else out_instr_ordinal out |}.

(** Modelled from the spec: the next record of input [j] goes to output [o],
    which holds it. *)
Definition emit (o j : nat) (s : state) : pull_result * state :=
  match st_outputs s !! o, st_inputs s !! j with
  | Some out, Some inp =>
      match in_rest inp with
      | r :: rest =>
          (PULL_RECORD r,
           set_outputs
             (set_inputs s (<[j := consume_input inp r rest]> (st_inputs s)))
             (<[o := count_output out r]> (st_outputs s)))
      | [] => (PULL_ERROR "no record to hand over",
               set_error s "no record to hand over")
      end
  | _, _ => (PULL_ERROR "unknown stream", set_error s "unknown stream")
  end.

(** *** Free assignment *)

(** Modelled from the spec: free assignment of section 4.1: among the
    inputs not assigned elsewhere and eligible per the Dependency Resolver,
    the one with the smallest next-available timestamp, ties going to the
    smallest index. *)
Definition pick_free (s : state) : option nat :=
  min_timestamp_input s (List.filter (eligible s) (unassigned_live s)).

(** Modelled from the spec: the assigned input blocks under the Dependency
    Resolver when a live unassigned input is ahead of it by more than the
    tolerance. *)
Definition input_blocked (s : state) (i : nat) : bool :=
  negb (eligible s i).

(** Modelled from the spec: whether the output keeps servicing its input: none
    of the three reassignment points (input exhausted, input blocked, quantum
    expired) has been reached. *)
Definition keeps_input (s : state) (out : output_info) : option nat :=
  match out_input out with
  | Some i =>
      match st_inputs s !! i with
      | Some inp =>
          if negb (input_exhausted inp) && negb (input_blocked s i) &&
             negb (quantum_expired s out)
          then Some i else None
      | None => None
      end
  | None => None
  end.

(** Modelled from the spec: a pull under free assignment (sections 4.1 to
    4.3): the output keeps its input or is reassigned to the eligible input
    with the smallest timestamp; it waits when live inputs remain but none can
    be given to it. *)
Definition pull_free (o : nat) (out : output_info) (s : state)
    : pull_result * state :=
  match keeps_input s out with
  | Some i => emit o i s
  | None =>
      let s1 := release o s in
      match pick_free s1 with
      | Some j => emit o j (assign o j None s1)
      | None => (PULL_WAIT, s1)
      end
  end.

(** *** Replay *)

(** Modelled from the spec: what the Schedule Replayer finds for an output:
    its next entry, nothing more, or an entry that cannot be honoured. *)
Inductive take_result :=
  | TAKE (e : schedule_entry)
  | TAKE_NONE
  | TAKE_BUSY
  | TAKE_ERROR (msg : string).

(** Modelled from the spec: the Schedule Replayer of sections 4.1 and 4.4:
    the next entry for output [o], in file order.  An entry whose input has
    no record left is a replay-integrity error for a recorded schedule and
    is skipped for an as-traced one; an entry whose input another output
    still holds stays in the log and the output waits. *)
Fixpoint take_entry (as_traced : bool) (s : state) (o : nat)
    (log : list schedule_entry) : take_result * list schedule_entry :=
  match log with
  | [] => (TAKE_NONE, [])
  | e :: rest =>
      if (se_output e =? o)%nat then
        match st_inputs s !! se_input e with
        | None => (TAKE_ERROR "entry references unknown input", log)
        | Some inp =>
            if input_exhausted inp then
              if as_traced then take_entry as_traced s o rest
              else (TAKE_ERROR "input exhausted early", log)
            else if assigned s (se_input e) then (TAKE_BUSY, log)
            else (TAKE e, rest)
        end
      else
        let '(r, rest') := take_entry as_traced s o rest in
        (r, e :: rest')
  end.

(** Modelled from the spec: the duration the replayed entry grants has been
    used up. *)
Definition run_complete (out : output_info) : bool :=
  match out_run_limit out with
  | Some d => (d <=? out_run_records out)%nat
  | None => false
  end.

(** Modelled from the spec: a reassignment point under replay: the run that
    ends is closed and the log decides the next one. *)
Definition next_run (as_traced : bool) (o : nat) (s : state)
    : pull_result * state :=
  let s1 := release o s in
  match take_entry as_traced s1 o (st_replay s1) with
  | (TAKE e, rest) =>
      emit o (se_input e)
           (assign o (se_input e) (Some (se_duration e)) (set_replay s1 rest))
  | (TAKE_NONE, rest) => (PULL_WAIT, set_replay s1 rest)
  | (TAKE_BUSY, rest) => (PULL_WAIT, set_replay s1 rest)
  | (TAKE_ERROR msg, _) => (PULL_ERROR msg, set_error s1 msg)
  end.

(** Modelled from the spec: recorded replay and as-traced replay of section
    4.1.  The entry's input is assigned for exactly the entry's duration;
    an input that runs out before its duration is a replay-integrity error
    for a recorded schedule and a reassignment point for an as-traced one.
    Neither the Dependency Resolver nor the Quantum Controller is
    consulted. *)
Definition pull_replay (as_traced : bool) (o : nat) (out : output_info)
    (s : state) : pull_result * state :=
  match out_input out with
  | Some i =>
      if run_complete out then next_run as_traced o s
      else
        match st_inputs s !! i with
        | Some inp =>
            if input_exhausted inp then
              if as_traced then next_run as_traced o s
              else (PULL_ERROR "input exhausted early",
                    set_error s "input exhausted early")
            else emit o i s
        | None => (PULL_ERROR "unknown stream", set_error s "unknown stream")
        end
  | None => next_run as_traced o s
  end.

(** Modelled from the spec: [pull(output_ordinal)] of section 4.1, the
    scheduling decision taken under the single critical section of section
    5: one call is one atomic transition of the scheduler's state.  The
    mapping mode is dispatched here and nowhere else. *)
Definition pull (o : nat) (s : state) : pull_result * state :=
  match st_error s with
  | Some msg => (PULL_ERROR msg, s)
  | None =>
      match st_outputs s !! o with
      | None => (PULL_ERROR "unknown output", s)
      | Some out =>
          if all_exhausted s then (PULL_EXHAUSTED, release o s)
          else
            match mapping (st_options s) with
            | MAP_TO_ANY_OUTPUT => pull_free o out s
            | MAP_AS_PREVIOUSLY => pull_replay false o out s
            | MAP_TO_RECORDED_OUTPUT => pull_replay true o out s
            end
      end
  end.

(** Modelled from the spec: [stream_t::get_input_stream_ordinal]: the input
    the output holds. *)
Definition get_input_stream_ordinal (o : nat) (s : state) : option nat :=
  out ← st_outputs s !! o; out_input out.

(** Modelled from the spec: the runs still open, by increasing output ordinal,
    for the outputs from ordinal [o] on. *)
Fixpoint open_runs_from (o : nat) (outs : list output_info)
    : list schedule_entry :=
  match outs with
  | [] => []
  | out :: rest =>
      match out_input out with
      | Some i => run_entry o i out :: open_runs_from (S o) rest
      | None => open_runs_from (S o) rest
      end
  end.

(** Modelled from the spec: the runs still open across all outputs. *)
Definition open_runs (s : state) : list schedule_entry :=
  open_runs_from 0 (st_outputs s).

(** Modelled from the spec: [write_recorded_schedule] of section 4.1: all
    accumulated Schedule Entries go to the recording stream; valid only
    when recording was configured. *)
Definition write_recorded_schedule (s : state)
    : scheduler_status_t * list schedule_entry :=
  match schedule_record_ostream (st_options s) with
  | Some _ => (STATUS_SUCCESS, st_log s ++ open_runs s)
  | None => (STATUS_ERROR 1, [])
  end.

(** ** Runs *)

(** Modelled from the spec: one pull as its caller sees it: the output pulled,
    what came back, and the input the output then holds. *)
Record pull_event := {
  pe_output : nat;
  pe_result : pull_result;
  pe_input : option nat
}.

(** Modelled from the spec: a scheduler run: the pulls of all consumers in the
    order in which they enter the critical section. *)
Fixpoint run (pulls : list nat) (s : state) : list pull_event * state :=
  match pulls with
  | [] => ([], s)
  | o :: rest =>
      let '(r, s1) := pull o s in
      let '(evs, s2) := run rest s1 in
      ({| pe_output := o; pe_result := r;
          pe_input := get_input_stream_ordinal o s1 |} :: evs, s2)
  end.



(** Modelled from the spec: the records emitted on output [o], with their
    input. *)
Definition emitted_on (o : nat) (evs : list pull_event)
    : list (nat * memref_t) :=
  omap (fun ev =>
          match pe_result ev, pe_input ev with
          | PULL_RECORD r, Some j =>
              if decide (pe_output ev = o) then Some (j, r) else None
          | _, _ => None
          end) evs.

(** Modelled from the spec: the (output ordinal, input identifier, duration)
    triple of an entry. *)
Definition triple (e : schedule_entry) : nat * nat * nat :=
  (se_output e, se_input e, se_duration e).

(** ** Accounting *)

(** The log as [write_recorded_schedule] would flush it now. *)
Definition written (s : state) : list schedule_entry :=
  st_log s ++ open_runs s.

(** The entries of one output, in log order, and their triples. *)
Definition entries_on (o : nat) (l : list schedule_entry)
    : list schedule_entry :=
  List.filter (fun e => (se_output e =? o)%nat) l.

Definition triples_on (o : nat) (l : list schedule_entry)
    : list (nat * nat * nat) :=
  triple <$> entries_on o l.

(** The records a log grants to input [i]. *)
Definition granted (i : nat) (l : list schedule_entry) : nat :=
  sum_list_with
    (fun e => if (se_input e =? i)%nat then se_duration e else 0%nat) l.

Definition holds (i : nat) (out : output_info) : bool :=
  bool_decide (out_input out = Some i).

(** The records of input [i] consumed by the runs still open. *)
Definition running (i : nat) (outs : list output_info) : nat :=
  sum_list_with
    (fun out => if holds i out then out_run_records out else 0%nat) outs.

(** The records of input [i] that the replayed runs still open have yet
    to consume. *)
Definition owed (i : nat) (outs : list output_info) : nat :=
  sum_list_with
    (fun out => if holds i out
                then (default 0%nat (out_run_limit out) -
                      out_run_records out)%nat
                else 0%nat) outs.

(** The triple of the replayed run an output is in. *)
Definition current_run (o : nat) (s : state) : list (nat * nat * nat) :=
  match st_outputs s !! o with
  | Some out =>
      match out_input out, out_run_limit out with
      | Some i, Some d => [(o, i, d)]
      | _, _ => []
      end
  | None => []
  end.

(** The records not yet consumed, over all inputs, and the outputs that
    hold an input. *)
Definition remaining (s : state) : nat :=
  sum_list_with (fun inp => length (in_rest inp)) (st_inputs s).

Definition holding (s : state) : nat :=
  sum_list_with (fun out => if is_set (out_input out) then 1%nat else 0%nat)
                (st_outputs s).

(** ** Invariants *)


(** The state after output [o], idle, has taken entry [e] and received the
    first record of its run. *)
Definition switched (o : nat) (e : schedule_entry) (s : state)
    (out : output_info) (inp : input_info) (r : memref_t)
    (rest : list memref_t) (log' : list schedule_entry) : state :=
  set_outputs
    (set_inputs (set_replay s log')
       (<[se_input e := consume_input inp r rest]> (st_inputs s)))
    (<[o := count_output
              (fresh_run (se_input e) (Some (se_duration e)) inp out) r]>
       (st_outputs s)).


(** A well-formed state: the entries of the log name outputs and inputs and
    grant at least one record; an output holds an existing input and,
    unless it is the output [x] that is just being assigned, has handed
    over at least one record of it; the position of an input is what the
    log and the open runs account for; and position plus records left is
    the length the input had at the start. *)
Record wf_ex (x : option nat) (totals : list nat) (s : state) : Prop := {
  wf_log :
    Forall (fun e => entry_ok (length (st_outputs s)) (length (st_inputs s)) e = true)
           (st_log s);
  wf_valid :
    forall o out i, st_outputs s !! o = Some out -> out_input out = Some i ->
                    i < length (st_inputs s);
  wf_started :
    forall o out i, x <> Some o -> st_outputs s !! o = Some out -> out_input out = Some i ->
                    1 <= out_run_records out;
  wf_count :
    forall i inp, st_inputs s !! i = Some inp ->
                  in_record_ordinal inp = granted i (st_log s) + running i (st_outputs s);
  wf_total :
    forall i inp, st_inputs s !! i = Some inp ->
                  totals !! i = Some (in_record_ordinal inp + length (in_rest inp))
}.

Abbreviation wf := (wf_ex None).


(** The lengths of the record streams of the workloads. *)
Definition stream_lengths (ws : list input_workload_t) : list nat :=
  (fun rs => length (rs_records rs)) <$> concat (wl_streams <$> ws).


(** A log that fits the inputs: every entry names an output and an input
    and grants at least one record, and what the log grants to an input
    is the length of the input. *)
Definition consistent (cores : nat) (totals : list nat)
    (log : list schedule_entry) : Prop :=
  Forall (fun e => entry_ok cores (length totals) e = true) log /\
  forall i t, totals !! i = Some t -> granted i log = t.


(** What holds of the scheduler while it replays the recorded schedule
    [log]. *)
Record replaying (log : list schedule_entry) (s : state) : Prop := {
  rp_mode : mapping (st_options s) = MAP_AS_PREVIOUSLY;
  rp_error : st_error s = None;
  rp_replay :
    Forall (fun e => entry_ok (length (st_outputs s))
                              (length (st_inputs s)) e = true)
           (st_replay s);
  rp_limit :
    forall o out i, st_outputs s !! o = Some out -> out_input out = Some i ->
                    exists d, out_run_limit out = Some d /\
                              out_run_records out <= d;
  rp_owed :
    forall i inp, st_inputs s !! i = Some inp ->
                  length (in_rest inp) =
                  granted i (st_replay s) + owed i (st_outputs s);
  rp_history :
    forall o, triples_on o (st_log s) ++ current_run o s ++
              triples_on o (st_replay s) = triples_on o log
}.


(** A pull under recorded replay, on a state that replays a log: how it can
    end.  It never fails. *)
Inductive replay_pull (o : nat) (s : state) : pull_result -> state -> Prop :=
  | replay_pull_unknown :
      st_outputs s !! o = None ->
      replay_pull o s (PULL_ERROR "unknown output") s
  | replay_pull_exhausted :
      all_exhausted s = true ->
      replay_pull o s PULL_EXHAUSTED (release o s)
  | replay_pull_emit out i inp r rest :
      st_outputs s !! o = Some out -> out_input out = Some i ->
      st_inputs s !! i = Some inp -> in_rest inp = r :: rest ->
      replay_pull o s (PULL_RECORD r)
        (set_outputs
           (set_inputs s (<[i := consume_input inp r rest]> (st_inputs s)))
           (<[o := count_output out r]> (st_outputs s)))
  | replay_pull_switch out1 e inp r rest l1 l2 :
      st_outputs (release o s) !! o = Some out1 -> out_input out1 = None ->
      st_replay s = l1 ++ e :: l2 -> entries_on o l1 = [] -> se_output e = o ->
      st_inputs s !! se_input e = Some inp -> in_rest inp = r :: rest ->
      replay_pull o s (PULL_RECORD r)
        (switched o e (release o s) out1 inp r rest (l1 ++ l2))
  | replay_pull_wait :
      (entries_on o (st_replay s) = [] \/
       exists e, e ∈ st_replay s /\ assigned (release o s) (se_input e) = true) ->
      replay_pull o s PULL_WAIT (release o s).


(** What one pull does to the inputs, as its caller can tell from the
    result and from the input the output then holds. *)
Definition pull_effect (o : nat) (s : state) (res : pull_result)
    (s' : state) : Prop :=
  match res with
  | PULL_RECORD r =>
      exists j inp rest,
        get_input_stream_ordinal o s' = Some j /\
        st_inputs s !! j = Some inp /\
        in_rest inp = r :: rest /\
        st_inputs s' = <[j := consume_input inp r rest]> (st_inputs s)
  | _ => st_inputs s' = st_inputs s
  end.

(** Twice the records left plus the outputs that hold an input: every
    useful pull makes it smaller. *)
Definition potential (s : state) : nat := 2 * remaining s + holding s.


(** ** Example inputs *)

Definition stamped (t ts : Z) : memref_t :=
  {| tid := t; kind := MEMREF_INSTR; timestamp := Some ts; payload := ts |}.

(** Two inputs of three records each, with timestamps 1, 3, 5 and
    2, 4, 6. *)
Definition interleaved_workload : input_workload_t :=
  {| wl_path := "traces";
     wl_streams :=
       [{| rs_tid := 1;
           rs_records := [stamped 1 1; stamped 1 3; stamped 1 5] |};
        {| rs_tid := 2;
           rs_records := [stamped 2 2; stamped 2 4; stamped 2 6] |}] |}.

Definition free_options (d : inter_input_dependency_t) (q : Z)
    : scheduler_options_t :=
  with_quantum_duration
    (make_scheduler_options MAP_TO_ANY_OUTPUT d SCHEDULER_DEFAULTS 0) q.

Definition recording_options (d : inter_input_dependency_t) (q : Z)
    : scheduler_options_t :=
  with_record_ostream (free_options d q) (Some {| os_path := "record.zip" |}).

Definition replaying_options (log : list schedule_entry)
    : scheduler_options_t :=
  with_replay_istream
    (make_scheduler_options MAP_AS_PREVIOUSLY DEPENDENCY_TIMESTAMPS
                            SCHEDULER_DEFAULTS 0)
    (Some {| is_path := "record.zip"; is_entries := Some log |}).

Definition as_traced_options (log : list as_traced_entry)
    : scheduler_options_t :=
  with_as_traced_istream
    (make_scheduler_options MAP_TO_RECORDED_OUTPUT DEPENDENCY_TIMESTAMPS
                            SCHEDULER_DEFAULTS 0)
    (Some {| is_path := "cpu_schedule.zip"; is_entries := Some log |}).

(** The state after a successful initialization. *)
Definition initialized (ws : list input_workload_t) (cores : Z)
    (ops : scheduler_options_t) : state :=
  match init ws cores ops with
  | inr s => s
  | inl msg =>
      {| st_options := ops; st_inputs := []; st_outputs := []; st_log := [];
         st_replay := []; st_error := Some msg |}
  end.

(** The order of the pulls of a recorded run, and of a replay. *)
Definition recorded_pulls : list nat := [0; 1; 0; 1; 1; 0; 0; 1; 0; 1].

Definition replayed_pulls : list nat :=
  [1; 1; 1; 1; 0; 0; 0; 0; 1; 0; 1; 1; 0; 0].

(** What the recorded run writes. *)
Definition recorded_log : list schedule_entry :=
  [{| se_output := 1; se_input := 1; se_start_ordinal := 0;
      se_start_timestamp := 2; se_duration := 2 |};
   {| se_output := 0; se_input := 0; se_start_ordinal := 0;
      se_start_timestamp := 1; se_duration := 2 |};
   {| se_output := 0; se_input := 0; se_start_ordinal := 2;
      se_start_timestamp := 5; se_duration := 1 |};
   {| se_output := 1; se_input := 1; se_start_ordinal := 2;
      se_start_timestamp := 6; se_duration := 1 |}].

(** Thread 7 has one record left and thread 9 has one. *)
Definition short_workload : input_workload_t :=
  {| wl_path := "traces";
     wl_streams :=
       [{| rs_tid := 7; rs_records := [stamped 7 1] |};
        {| rs_tid := 9; rs_records := [stamped 9 2] |}] |}.

End Scheduler.

(* ===================================================================== *)
(** * scheduler_launcher.cpp                                              *)
(* ===================================================================== *)

Module Launcher.
Import Scheduler.

(** ** Options *)

(** A [droption_t<int>] declared with a range. *)
Record droption_int := {
  opt_name : string;
  opt_default : Z;
  opt_min : Z;
  opt_max : Z
}.

(** [op_verbose]: default 1, range 0 to 64. *)
Definition op_verbose : droption_int :=
  {| opt_name := "verbose"; opt_default := 1; opt_min := 0; opt_max := 64 |}.

(** [op_num_cores]: default 4, range 0 to 8192. *)
Definition op_num_cores : droption_int :=
  {| opt_name := "num_cores"; opt_default := 4; opt_min := 0;
     opt_max := 8192 |}.

(** The default of [op_sched_quantum], in instructions. *)
Definition op_sched_quantum_default : Z := 1 * 1000 * 1000.

Definition in_range (op : droption_int) (v : Z) : bool :=
  (opt_min op <=? v)%Z && (v <=? opt_max op)%Z.

(** The values of the launcher's options after parsing. *)
Record options := {
  trace_dir : string;
  verbose : Z;
  num_cores : Z;
  sched_quantum : Z;
  record_file : string;
  replay_file : string;
  cpu_schedule_file : string
}.

Definition default_options : options :=
  {| trace_dir := EmptyString; verbose := opt_default op_verbose;
     num_cores := opt_default op_num_cores;
     sched_quantum := op_sched_quantum_default;
     record_file := EmptyString; replay_file := EmptyString;
     cpu_schedule_file := EmptyString |}.

(** ** The scheduler as the launcher uses it *)

(** The member functions of [scheduler_t] and of its streams that the
    launcher calls, over the type of the scheduler object.  [next_record]
    takes the content of the caller's [record] and returns its content
    after the call. *)
Class scheduler_api (S : Type) := {
  sched_new : S;
  sched_init :
    list input_workload_t -> Z -> scheduler_options_t -> S ->
    scheduler_status_t * S;
  sched_get_error_string : S -> string;
  sched_next_record : nat -> memref_t -> S -> stream_status_t * memref_t * S;
  sched_write_recorded_schedule : S -> scheduler_status_t * S
}.

(** What the launcher takes from outside: the build flag, the two library
    calls on the command line, the files it opens, and the two values C++
    leaves to the platform ([INVALID_THREAD_ID] of the DynamoRIO headers and
    the content of the uninitialized local [record]).  [convert_args] is
    the failure code of [drfront_convert_args], if it fails; [parse_argv] is
    either the parser's error string or the values of the options, which
    droption.h keeps within their declared ranges. *)
Record environment := {
  HAS_ZIP : bool;
  convert_args : option Z;
  parse_argv : string + options;
  read_dir : string -> list record_stream;
  open_replay : string -> istream_t schedule_entry;
  open_cpu_schedule : string -> istream_t as_traced_entry;
  INVALID_THREAD_ID : Z;
  uninitialized_record : memref_t
}.

(** ** Output *)

(** The messages of [FATAL_ERROR]. *)
Inductive diagnostic :=
  | FAILED_TO_PROCESS_ARGS (sc : Z)
  | USAGE_ERROR (parse_err : string)
  | FAILED_TO_INITIALIZE (error_string : string)
  | FAILED_TO_ADVANCE (status : stream_status_t)
  | FAILED_TO_WRITE (path : string).

(** What goes to [stderr]: an "ERROR: ..." line, the line a core prints
    when its thread changes, "Creating n simulator threads", and the final
    "Core #i: ..." lines. *)
Inductive stderr_line :=
  | LINE_ERROR (d : diagnostic)
  | LINE_SWITCH (ordinal : nat) (t : Z)
  | LINE_CREATING (n : Z)
  | LINE_CORE (i : nat) (tids : list Z).

(** ** [simulate_core] *)

(** The variables of one consumer: the [thread_sequence] it was handed by
    reference, [prev_tid] and [record]. *)
Record core_t := {
  thread_sequence : list Z;
  prev_tid : Z;
  record : memref_t
}.

(** What one evaluation of the loop does with the status it was given. *)
Inductive iteration :=
  | ITER_RETURN
  | ITER_YIELD
  | ITER_NEXT (c : core_t) (printed : list stderr_line)
  | ITER_FATAL (d : diagnostic).

Definition push_back (c : core_t) (r : memref_t) : list Z :=
  thread_sequence c ++ [tid r].

(** The loop of [simulate_core], from the test of its condition to the end
    of its body, with [status] and [r] as [next_record] left them. *)
Definition loop_iteration (verbose_level : Z) (ordinal : nat) (c : core_t)
    (status : stream_status_t) (r : memref_t) : iteration :=
  match status with
  | STATUS_EOF => ITER_RETURN
  | STATUS_WAIT => ITER_YIELD
  | STATUS_OK =>
      match thread_sequence c with
      | [] =>
          ITER_NEXT {| thread_sequence := push_back c r; prev_tid := tid r;
                       record := r |} []
      | _ :: _ =>
          if bool_decide (tid r <> prev_tid c) then
            ITER_NEXT {| thread_sequence := push_back c r; prev_tid := tid r;
                         record := r |}
                      (if (0 <? verbose_level)%Z
                       then [LINE_SWITCH ordinal (tid r)] else [])
          else
            ITER_NEXT {| thread_sequence := thread_sequence c;
                         prev_tid := tid r; record := r |} []
      end
  | STATUS_OTHER _ => ITER_FATAL (FAILED_TO_ADVANCE status)
  end.

(** How a call of [simulate_core] stands after a finite sequence of
    answers: it returned, it ended the process through [FATAL_ERROR], or it
    is inside [next_record] once more. *)
Inductive core_outcome :=
  | CORE_RETURNED
  | CORE_FATAL (d : diagnostic)
  | CORE_PULLING.

Record core_run := {
  cr_outcome : core_outcome;
  cr_core : core_t;
  cr_yields : nat;
  cr_stderr : list stderr_line
}.

Definition with_yield (r : core_run) : core_run :=
  {| cr_outcome := cr_outcome r; cr_core := cr_core r;
     cr_yields := S (cr_yields r); cr_stderr := cr_stderr r |}.

Definition with_printed (out : list stderr_line) (r : core_run) : core_run :=
  {| cr_outcome := cr_outcome r; cr_core := cr_core r;
     cr_yields := cr_yields r; cr_stderr := out ++ cr_stderr r |}.

(** [simulate_core] against the answers of [next_record], one pair (status,
    record) per call. *)
Fixpoint simulate_core (verbose_level : Z) (ordinal : nat) (c : core_t)
    (answers : list (stream_status_t * memref_t)) : core_run :=
  match answers with
  | [] => {| cr_outcome := CORE_PULLING; cr_core := c; cr_yields := 0;
             cr_stderr := [] |}
  | (status, r) :: rest =>
      match loop_iteration verbose_level ordinal c status r with
      | ITER_RETURN =>
          {| cr_outcome := CORE_RETURNED; cr_core := c; cr_yields := 0;
             cr_stderr := [] |}
      | ITER_YIELD =>
          with_yield (simulate_core verbose_level ordinal c rest)
      | ITER_NEXT c' out =>
          with_printed out (simulate_core verbose_level ordinal c' rest)
      | ITER_FATAL d =>
          {| cr_outcome := CORE_FATAL d; cr_core := c; cr_yields := 0;
             cr_stderr := [LINE_ERROR d] |}
      end
  end.

Definition new_core (env : environment) : core_t :=
  {| thread_sequence := []; prev_tid := INVALID_THREAD_ID env;
     record := uninitialized_record env |}.

(** The answers the loop consumes: those before the first one that is
    neither [STATUS_OK] nor [STATUS_WAIT]. *)
Fixpoint consumed (answers : list (stream_status_t * memref_t))
    : list (stream_status_t * memref_t) :=
  match answers with
  | [] => []
  | (STATUS_OK, r) :: rest => (STATUS_OK, r) :: consumed rest
  | (STATUS_WAIT, r) :: rest => (STATUS_WAIT, r) :: consumed rest
  | _ :: _ => []
  end.

(** The thread identifiers of the records received with [STATUS_OK]. *)
Definition ok_tids (answers : list (stream_status_t * memref_t)) : list Z :=
  omap (fun a => match a with
                 | (STATUS_OK, r) => Some (tid r)
                 | _ => None
                 end) (consumed answers).

(** Run-length compression: each maximal run of equal neighbours shrinks to
    one element. *)
Fixpoint compress (l : list Z) : list Z :=
  match l with
  | [] => []
  | x :: rest =>
      match rest with
      | y :: _ => if bool_decide (x = y) then compress rest
                  else x :: compress rest
      | [] => [x]
      end
  end.

(** ** [_tmain] *)

(** The block of [_tmain] under [HAS_ZIP] that fills the scheduler options:
    an if / else-if chain over the three file options, in this order. *)
Definition build_sched_ops (env : environment) (o : options)
    : scheduler_options_t :=
  let sched_ops :=
    make_scheduler_options MAP_TO_ANY_OUTPUT DEPENDENCY_TIMESTAMPS
                           SCHEDULER_DEFAULTS (verbose o) in
  let sched_ops := with_quantum_duration sched_ops (sched_quantum o) in
  if HAS_ZIP env then
    if negb (empty (record_file o)) then
      with_record_ostream sched_ops (Some {| os_path := record_file o |})
    else if negb (empty (replay_file o)) then
      let sched_ops :=
        with_replay_istream sched_ops
          (Some (open_replay env (replay_file o))) in
      let sched_ops := with_mapping sched_ops MAP_AS_PREVIOUSLY in
      with_deps sched_ops DEPENDENCY_TIMESTAMPS
    else if negb (empty (cpu_schedule_file o)) then
      let sched_ops := with_mapping sched_ops MAP_TO_RECORDED_OUTPUT in
      let sched_ops := with_deps sched_ops DEPENDENCY_TIMESTAMPS in
      with_as_traced_istream sched_ops
        (Some (open_cpu_schedule env (cpu_schedule_file o)))
    else sched_ops
  else sched_ops.

(** What the process does that can be seen from outside, in the order in
    which it happens. *)
Inductive event :=
  | EV_STDERR (line : stderr_line)
  | EV_INIT (cores : Z) (ops : scheduler_options_t)
  | EV_SPAWN (i : nat)
  | EV_NEXT_RECORD (i : nat) (status : stream_status_t)
  | EV_YIELD (i : nat)
  | EV_JOIN (i : nat)
  | EV_WRITE_RECORDED_SCHEDULE
  | EV_EXIT (code : Z).

Definition is_write (e : event) : bool :=
  match e with
  | EV_WRITE_RECORDED_SCHEDULE => true
  | _ => false
  end.

Definition is_pull (e : event) : bool :=
  match e with
  | EV_NEXT_RECORD _ _ => true
  | _ => false
  end.

(** Where the main thread stands: creating thread [k], joining thread [k],
    or gone with the whole process ([exit] or the return of [_tmain]). *)
Inductive main_pc :=
  | PC_SPAWN (k : nat)
  | PC_JOIN (k : nat)
  | PC_EXITED (code : Z).

Record thread_t := {
  th_core : core_t;
  th_finished : bool
}.

(** The process: the option values, the scheduler object all threads
    share, one entry of [schedules] per core with the state of its thread,
    the main thread, and the events so far. *)
Record process (S : Type) := {
  p_options : options;
  p_sched : S;
  p_threads : list thread_t;
  p_pc : main_pc;
  p_events : list event
}.
Arguments p_options {S} _.
Arguments p_sched {S} _.
Arguments p_threads {S} _.
Arguments p_pc {S} _.
Arguments p_events {S} _.

(** The threads that take steps. *)
Inductive actor :=
  | MAIN
  | CORE (i : nat).

Definition fatal_error (d : diagnostic) : list event :=
  [EV_STDERR (LINE_ERROR d); EV_EXIT 1].

Section Process.
Context {S : Type} `{!scheduler_api S}.
Variable env : environment.

Definition halted (o : options) (sch : S) (evs : list event) (code : Z)
    : process S :=
  {| p_options := o; p_sched := sch; p_threads := []; p_pc := PC_EXITED code;
     p_events := evs |}.

(** [_tmain] up to the line that reserves the thread vector. *)
Definition startup : process S :=
  match convert_args env with
  | Some sc =>
      halted default_options sched_new
             (fatal_error (FAILED_TO_PROCESS_ARGS sc)) 1
  | None =>
      match parse_argv env with
      | inl parse_err =>
          halted default_options sched_new
                 (fatal_error (USAGE_ERROR parse_err)) 1
      | inr o =>
          if empty (trace_dir o) then
            halted o sched_new (fatal_error (USAGE_ERROR EmptyString)) 1
          else
            let sched_inputs :=
              [{| wl_path := trace_dir o;
                  wl_streams := read_dir env (trace_dir o) |}] in
            let sched_ops := build_sched_ops env o in
            let '(status, sch) :=
              sched_init sched_inputs (num_cores o) sched_ops sched_new in
            if bool_decide (status <> STATUS_SUCCESS) then
              halted o sch
                (EV_INIT (num_cores o) sched_ops ::
                 fatal_error (FAILED_TO_INITIALIZE
                                (sched_get_error_string sch))) 1
            else
              {| p_options := o; p_sched := sch;
                 p_threads :=
                   replicate (Z.to_nat (num_cores o))
                     {| th_core := new_core env; th_finished := false |};
                 p_pc := PC_SPAWN 0;
                 p_events := [EV_INIT (num_cores o) sched_ops;
                              EV_STDERR (LINE_CREATING (num_cores o))] |}
      end
  end.

(** Thread [i] exists once the main thread has created it and as long as
    the process lives. *)
Definition spawned (pc : main_pc) (i : nat) : bool :=
  match pc with
  | PC_SPAWN k => (i <? k)%nat
  | PC_JOIN _ => true
  | PC_EXITED _ => false
  end.

Definition set_thread (p : process S) (sch : S) (i : nat) (t : thread_t)
    (evs : list event) : process S :=
  {| p_options := p_options p; p_sched := sch;
     p_threads := <[i := t]> (p_threads p); p_pc := p_pc p;
     p_events := p_events p ++ evs |}.

(** One step of consumer thread [i]: one call of [next_record] and the
    evaluation of the loop that follows it. *)
Definition core_step (i : nat) (p : process S) : process S :=
  if spawned (p_pc p) i then
    match p_threads p !! i with
    | Some t =>
        if th_finished t then p
        else
          let '(status, r, sch) :=
            sched_next_record i (record (th_core t)) (p_sched p) in
          match loop_iteration (verbose (p_options p)) i (th_core t)
                               status r with
          | ITER_RETURN =>
              set_thread p sch i
                {| th_core := th_core t; th_finished := true |}
                [EV_NEXT_RECORD i status]
          | ITER_YIELD =>
              set_thread p sch i t [EV_NEXT_RECORD i status; EV_YIELD i]
          | ITER_NEXT c printed =>
              set_thread p sch i
                {| th_core := c; th_finished := false |}
                (EV_NEXT_RECORD i status :: (EV_STDERR <$> printed))
          | ITER_FATAL d =>
              {| p_options := p_options p; p_sched := sch;
                 p_threads := p_threads p; p_pc := PC_EXITED 1;
                 p_events :=
                   p_events p ++ EV_NEXT_RECORD i status :: fatal_error d |}
          end
    | None => p
    end
  else p.

Definition set_main (p : process S) (sch : S) (pc : main_pc)
    (evs : list event) : process S :=
  {| p_options := p_options p; p_sched := sch; p_threads := p_threads p;
     p_pc := pc; p_events := p_events p ++ evs |}.

Definition print_schedules (p : process S) : list event :=
  imap (fun i t => EV_STDERR (LINE_CORE i (thread_sequence (th_core t))))
       (p_threads p).

(** [_tmain] after the join loop: the schedules are printed, the recorded
    schedule is written if a record file was asked for, and [_tmain]
    returns. *)
Definition finish (p : process S) : process S :=
  let printed := print_schedules p in
  if HAS_ZIP env && negb (empty (record_file (p_options p))) then
    let '(status, sch) := sched_write_recorded_schedule (p_sched p) in
    if bool_decide (status <> STATUS_SUCCESS) then
      set_main p sch (PC_EXITED 1)
        (printed ++ EV_WRITE_RECORDED_SCHEDULE ::
         fatal_error (FAILED_TO_WRITE (record_file (p_options p))))
    else
      set_main p sch (PC_EXITED 0)
        (printed ++ [EV_WRITE_RECORDED_SCHEDULE; EV_EXIT 0])
  else set_main p (p_sched p) (PC_EXITED 0) (printed ++ [EV_EXIT 0]).

Definition thread_finished (p : process S) (k : nat) : bool :=
  match p_threads p !! k with
  | Some t => th_finished t
  | None => false
  end.

(** One step of the main thread: it creates the next thread, or joins the
    next thread if that one has returned (and stays blocked in [join]
    otherwise), or runs the rest of [_tmain]. *)
Definition main_step (p : process S) : process S :=
  match p_pc p with
  | PC_SPAWN k =>
      if (k <? length (p_threads p))%nat
      then set_main p (p_sched p) (PC_SPAWN (Datatypes.S k)) [EV_SPAWN k]
      else set_main p (p_sched p) (PC_JOIN 0) []
  | PC_JOIN k =>
      if (k <? length (p_threads p))%nat then
        if thread_finished p k
        then set_main p (p_sched p) (PC_JOIN (Datatypes.S k)) [EV_JOIN k]
        else p
      else finish p
  | PC_EXITED _ => p
  end.

Definition step (a : actor) (p : process S) : process S :=
  match a with
  | MAIN => main_step p
  | CORE i => core_step i p
  end.

Definition run_process (interleaving : list actor) (p : process S)
    : process S :=
  foldl (fun q a => step a q) p interleaving.

(** [_tmain] under one interleaving of its threads. *)
Definition _tmain (interleaving : list actor) : process S :=
  run_process interleaving startup.

(** *** The events of a run *)

Definition no_write (evs : list event) : Prop :=
  Forall (fun e => is_write e = false) evs.

Definition no_pull (evs : list event) : Prop :=
  Forall (fun e => is_pull e = false) evs.

(** The threads [0 .. n-1] have been joined. *)
Definition joined (n : nat) (evs : list event) : Prop :=
  forall i, (i < n)%nat -> EV_JOIN i ∈ evs.

(** Only threads of the vector are created. *)
Definition spawns_bounded (n : nat) (evs : list event) : Prop :=
  forall i, EV_SPAWN i ∈ evs -> (i < n)%nat.

(** The events hold one call of [write_recorded_schedule], made under
    [HAS_ZIP] with a record file, after the joins of all threads and with
    no pull after it. *)
Definition wrote_after_joins (p : process S) : Prop :=
  exists pre post,
    p_events p = pre ++ EV_WRITE_RECORDED_SCHEDULE :: post /\
    no_write pre /\ no_write post /\ no_pull post /\
    joined (length (p_threads p)) pre /\
    HAS_ZIP env = true /\ empty (record_file (p_options p)) = false.

(** What holds of the process at every point of every interleaving. *)
Definition main_inv (p : process S) : Prop :=
  spawns_bounded (length (p_threads p)) (p_events p) /\
  match p_pc p with
  | PC_SPAWN k => no_write (p_events p)
  | PC_JOIN k => no_write (p_events p) /\ joined k (p_events p)
  | PC_EXITED _ => no_write (p_events p) \/ wrote_after_joins p
  end.

(** Events that are neither a thread creation nor the write. *)
Definition quiet (evs : list event) : Prop :=
  Forall (fun e => match e with
                   | EV_SPAWN _ | EV_WRITE_RECORDED_SCHEDULE => False
                   | _ => True
                   end) evs.

End Process.

(** ** Two schedulers behind the interface *)

(** A scheduler that answers each stream from a script, one (status,
    record) pair per call; a stream whose script is used up answers
    [STATUS_WAIT]. *)
Record scripted := {
  sc_init : scheduler_status_t;
  sc_error_string : string;
  sc_answers : list (list (stream_status_t * memref_t));
  sc_write : scheduler_status_t
}.

Definition scripted_next_record (i : nat) (r : memref_t) (s : scripted)
    : stream_status_t * memref_t * scripted :=
  match sc_answers s !! i with
  | Some ((status, r') :: rest) =>
      (status, r',
       {| sc_init := sc_init s; sc_error_string := sc_error_string s;
          sc_answers := <[i := rest]> (sc_answers s);
          sc_write := sc_write s |})
  | _ => (STATUS_WAIT, r, s)
  end.

Definition scripted_api (script : scripted) : scheduler_api scripted :=
  {| sched_new := script;
     sched_init := fun _ _ _ s => (sc_init s, s);
     sched_get_error_string := sc_error_string;
     sched_next_record := scripted_next_record;
     sched_write_recorded_schedule := fun s => (sc_write s, s) |}.

(** The scheduler object over the model of module [Scheduler]. *)
Record scheduler_t := {
  sch_state : option state;
  sch_error_string : string;
  sch_written : option (list schedule_entry)
}.

Definition model_init (ws : list input_workload_t) (cores : Z)
    (ops : scheduler_options_t) (s : scheduler_t)
    : scheduler_status_t * scheduler_t :=
  match init ws cores ops with
  | inl msg =>
      (STATUS_ERROR 1,
       {| sch_state := None; sch_error_string := msg; sch_written := None |})
  | inr st =>
      (STATUS_SUCCESS,
       {| sch_state := Some st; sch_error_string := EmptyString;
          sch_written := None |})
  end.

Definition model_next_record (o : nat) (r : memref_t) (s : scheduler_t)
    : stream_status_t * memref_t * scheduler_t :=
  match sch_state s with
  | None => (STATUS_OTHER 1, r, s)
  | Some st =>
      let '(res, st') := pull o st in
      let s' := {| sch_state := Some st';
                   sch_error_string := default EmptyString (st_error st');
                   sch_written := sch_written s |} in
      match res with
      | PULL_RECORD r' => (STATUS_OK, r', s')
      | PULL_WAIT => (STATUS_WAIT, r, s')
      | PULL_EXHAUSTED => (STATUS_EOF, r, s')
      | PULL_ERROR _ => (STATUS_OTHER 1, r, s')
      end
  end.

Definition model_write (s : scheduler_t) : scheduler_status_t * scheduler_t :=
  match sch_state s with
  | None => (STATUS_ERROR 1, s)
  | Some st =>
      let '(status, l) := write_recorded_schedule st in
      (status,
       {| sch_state := sch_state s; sch_error_string := sch_error_string s;
          sch_written :=
            if bool_decide (status = STATUS_SUCCESS) then Some l
            else sch_written s |})
  end.

Definition model_api : scheduler_api scheduler_t :=
  {| sched_new := {| sch_state := None; sch_error_string := EmptyString;
                     sch_written := None |};
     sched_init := model_init;
     sched_get_error_string := sch_error_string;
     sched_next_record := model_next_record;
     sched_write_recorded_schedule := model_write |}.

(** No two neighbours are equal. *)
Definition adjacent_distinct (l : list Z) : Prop :=
  forall i x y, l !! i = Some x -> l !! S i = Some y -> x <> y.

(** ** Example inputs *)

Definition example_record (t : Z) : memref_t :=
  {| tid := t; kind := MEMREF_INSTR; timestamp := None; payload := 0 |}.

Definition example_environment : environment :=
  {| HAS_ZIP := true; convert_args := None;
     parse_argv := inr default_options;
     read_dir := fun _ => [];
     open_replay := fun f => {| is_path := f; is_entries := Some [] |};
     open_cpu_schedule := fun f => {| is_path := f; is_entries := Some [] |};
     INVALID_THREAD_ID := 0;
     uninitialized_record := example_record 0 |}.

(** ** Statements about the configuration *)

(** The four persistence modes of the configuration. *)
Inductive persistence :=
  | NO_PERSISTENCE
  | RECORDING
  | REPLAYING_RECORDED
  | REPLAYING_AS_TRACED.

(** A persistence mode is active when its stream handle is set; no
    persistence, when none of the three is. *)
Definition active (ops : scheduler_options_t) (m : persistence) : bool :=
  match m with
  | NO_PERSISTENCE =>
      negb (is_set (schedule_record_ostream ops)) &&
      negb (is_set (schedule_replay_istream ops)) &&
      negb (is_set (replay_as_traced_istream ops))
  | RECORDING => is_set (schedule_record_ostream ops)
  | REPLAYING_RECORDED => is_set (schedule_replay_istream ops)
  | REPLAYING_AS_TRACED => is_set (replay_as_traced_istream ops)
  end.



Definition replay_options : options :=
  {| trace_dir := "traces"; verbose := 1; num_cores := 4;
     sched_quantum := op_sched_quantum_default;
     record_file := EmptyString; replay_file := "schedule.zip";
     cpu_schedule_file := EmptyString |}.






(** A launcher asked to record, over a scheduler whose two streams are at
    their end at once, and an interleaving that runs it to its return. *)
Definition recording_launch_options : options :=
  {| trace_dir := "traces"; verbose := 1; num_cores := 2;
     sched_quantum := op_sched_quantum_default;
     record_file := "record.zip"; replay_file := EmptyString;
     cpu_schedule_file := EmptyString |}.

Definition recording_environment : environment :=
  {| HAS_ZIP := true; convert_args := None;
     parse_argv := inr recording_launch_options;
     read_dir := fun _ => [];
     open_replay := fun f => {| is_path := f; is_entries := Some [] |};
     open_cpu_schedule := fun f => {| is_path := f; is_entries := Some [] |};
     INVALID_THREAD_ID := 0;
     uninitialized_record := example_record 0 |}.

Definition ending_streams : scripted :=
  {| sc_init := STATUS_SUCCESS; sc_error_string := EmptyString;
     sc_answers :=
       [[(STATUS_EOF, example_record 0)]; [(STATUS_EOF, example_record 0)]];
     sc_write := STATUS_SUCCESS |}.

Definition run_to_return : list actor :=
  [MAIN; MAIN; MAIN; CORE 0; CORE 1; MAIN; MAIN; MAIN].

(** A launcher asked for no core at all. *)
Definition zero_core_options : options :=
  {| trace_dir := "traces"; verbose := 1; num_cores := 0;
     sched_quantum := op_sched_quantum_default;
     record_file := EmptyString; replay_file := EmptyString;
     cpu_schedule_file := EmptyString |}.

Definition zero_core_environment : environment :=
  {| HAS_ZIP := true; convert_args := None;
     parse_argv := inr zero_core_options;
     read_dir := fun _ => [{| rs_tid := 7; rs_records := [example_record 7] |}];
     open_replay := fun f => {| is_path := f; is_entries := Some [] |};
     open_cpu_schedule := fun f => {| is_path := f; is_entries := Some [] |};
     INVALID_THREAD_ID := 0;
     uninitialized_record := example_record 0 |}.

End Launcher.

(* ===================================================================== *)
(** * drpt2trace.cpp                                                      *)
(* ===================================================================== *)

Module Drpt2trace.

Local Open Scope Z_scope.

Definition SUCCESS : Z := 0.
Definition FAILURE : Z := 1.

(** Arithmetic on [size_t] and [uint64_t] (Linux x86_64, as the file
    demands): every result is taken modulo 2^64. *)
Definition wrap64 (z : Z) : Z := z mod 2 ^ 64.

(** [sizeof(uint64_t)]. *)
Definition sizeof_uint64_t : Z := 8.

(** What trace_entry.h declares and [main] uses; the header is not among
    the sources, so its constants and the bit-fields of
    [syscall_pt_entry_t] are parameters.  A bit-field is read from the
    bytes of its entry; [pt_data_boundary_data_size_bits] is the width of
    [pt_data_boundary.data_size]. *)
Class pdb_layout := {
  sizeof_syscall_pt_entry_t : Z;
  PT_METADATA_PDB_HEADER_SIZE : Z;
  PT_METADATA_PDB_DATA_OFFSET : Z;
  PT_DATA_PDB_HEADER_SIZE : Z;
  PT_DATA_PDB_DATA_OFFSET : Z;
  SYSCALL_METADATA_SIZE : Z;
  PDB_HEADER_DATA_BOUNDARY_IDX : Z;
  PDB_HEADER_NUM_ARGS_IDX : Z;
  SYSCALL_PT_ENTRY_TYPE_PT_METADATA_BOUNDARY : Z;
  SYSCALL_PT_ENTRY_TYPE_PT_DATA_BOUNDARY : Z;
  pt_metadata_boundary_type : list byte -> Z;
  pt_metadata_boundary_data_size : list byte -> Z;
  pt_data_boundary_type : list byte -> Z;
  pt_data_boundary_data_size : list byte -> Z;
  pt_data_boundary_data_size_bits : Z;
  syscall_args_num_args_num : list byte -> Z
}.

(** What one pass through the loop body leads to: a [return FAILURE], or
    the next header offset and the converter after its call. *)
Inductive body_result (D : Type) :=
  | BODY_FAILURE
  | BODY_NEXT (cur : Z) (d : D).
Arguments BODY_FAILURE {D}.
Arguments BODY_NEXT {D} _ _.

(** How the loop ends: its condition turned false, it returned [FAILURE], or
    the iterations allowed were used up. *)
Inductive loop_result (D : Type) :=
  | LOOP_DONE (cur : Z) (d : D)
  | LOOP_FAILURE
  | LOOP_OUT_OF_FUEL.
Arguments LOOP_DONE {D} _ _.
Arguments LOOP_FAILURE {D}.
Arguments LOOP_OUT_OF_FUEL {D}.

Section Loop.
Context `{pdb_layout}.
(** The [pt2ir_t] converter and what it has built so far; [convert] is given
    the offset of [pt_data] in the buffer and [pt_data_size], and answers
    whether the status is [PT2IR_CONV_SUCCESS]. *)
Context {D : Type}.
Variable convert : Z -> Z -> D -> bool * D.

(** [pt_raw_buffer.size()]. *)
Definition size (pt_raw_buffer : list byte) : Z :=
  Z.of_nat (length pt_raw_buffer).

(** The bytes of [header[idx]] for a header at byte offset [off]. *)
Definition entry_at (pt_raw_buffer : list byte) (off idx : Z) : list byte :=
  take (Z.to_nat sizeof_syscall_pt_entry_t)
       (drop (Z.to_nat (off + idx * sizeof_syscall_pt_entry_t))
             pt_raw_buffer).

(** The offset before the first iteration. *)
Definition initial_offset (pt_raw_buffer : list byte) : Z :=
  wrap64 (PT_METADATA_PDB_HEADER_SIZE +
          pt_metadata_boundary_data_size
            (entry_at pt_raw_buffer 0 PDB_HEADER_DATA_BOUNDARY_IDX)).

(** The body of the while loop of [main]. *)
Definition loop_body (pt_raw_buffer : list byte) (cur_pdb_header_offset : Z)
    (d : D) : body_result D :=
  if size pt_raw_buffer <?
     wrap64 (cur_pdb_header_offset + PT_DATA_PDB_HEADER_SIZE)
  then BODY_FAILURE
  else if bool_decide
            (pt_data_boundary_type
               (entry_at pt_raw_buffer cur_pdb_header_offset
                         PDB_HEADER_DATA_BOUNDARY_IDX)
             <> SYSCALL_PT_ENTRY_TYPE_PT_DATA_BOUNDARY)
  then BODY_FAILURE
  else
    let args_num :=
      syscall_args_num_args_num
        (entry_at pt_raw_buffer cur_pdb_header_offset
                  PDB_HEADER_NUM_ARGS_IDX) in
    let pt_data_size :=
      wrap64
        (wrap64
           (pt_data_boundary_data_size
              (entry_at pt_raw_buffer cur_pdb_header_offset
                        PDB_HEADER_DATA_BOUNDARY_IDX)
            - SYSCALL_METADATA_SIZE)
         - wrap64 (args_num * sizeof_uint64_t)) in
    let pt_data :=
      cur_pdb_header_offset + PT_DATA_PDB_DATA_OFFSET +
      wrap64 (args_num * sizeof_uint64_t) in
    match convert pt_data pt_data_size d with
    | (false, _) => BODY_FAILURE
    | (true, d') =>
        BODY_NEXT
          (wrap64
             (cur_pdb_header_offset +
              wrap64
                (wrap64 (PT_DATA_PDB_HEADER_SIZE +
                         wrap64 (args_num * sizeof_uint64_t))
                 + pt_data_size)))
          d'
    end.

(** The while loop, for at most [fuel] iterations. *)
Fixpoint pdb_loop (fuel : nat) (pt_raw_buffer : list byte)
    (cur_pdb_header_offset : Z) (d : D) : loop_result D :=
  if cur_pdb_header_offset <? size pt_raw_buffer then
    match fuel with
    | O => LOOP_OUT_OF_FUEL
    | S fuel' =>
        match loop_body pt_raw_buffer cur_pdb_header_offset d with
        | BODY_FAILURE => LOOP_FAILURE
        | BODY_NEXT cur' d' => pdb_loop fuel' pt_raw_buffer cur' d'
        end
    end
  else LOOP_DONE cur_pdb_header_offset d.

(** The number of iterations the loop performs within [fuel]. *)
Fixpoint iterations (fuel : nat) (pt_raw_buffer : list byte)
    (cur_pdb_header_offset : Z) (d : D) : nat :=
  if cur_pdb_header_offset <? size pt_raw_buffer then
    match fuel with
    | O => O
    | S fuel' =>
        match loop_body pt_raw_buffer cur_pdb_header_offset d with
        | BODY_FAILURE => 1%nat
        | BODY_NEXT cur' d' => S (iterations fuel' pt_raw_buffer cur' d')
        end
    end
  else O.

(** The branch of [main] for the DRMEMTRACE format, from the check of the
    metadata header to the end of the loop.  [init] stands for
    [config.init_with_metadata] and [ptconverter->init]: it is given the
    offset of the metadata and answers with the converter, or with nothing
    if the initialization fails. *)
Definition drmemtrace (init : Z -> option D) (fuel : nat)
    (pt_raw_buffer : list byte) : loop_result D :=
  if bool_decide
       (pt_metadata_boundary_type
          (entry_at pt_raw_buffer 0 PDB_HEADER_DATA_BOUNDARY_IDX)
        <> SYSCALL_PT_ENTRY_TYPE_PT_METADATA_BOUNDARY)
  then LOOP_FAILURE
  else
    match init PT_METADATA_PDB_DATA_OFFSET with
    | None => LOOP_FAILURE
    | Some d =>
        pdb_loop fuel pt_raw_buffer (initial_offset pt_raw_buffer) d
    end.

End Loop.

(** What the loop needs of trace_entry.h: [pt_data_boundary.data_size] is a
    bit-field that shares the 64 bits of its entry with [type], the syscall
    metadata is a part of the PT data header, and the header is small
    against 2^63. *)
Class pdb_layout_ok `{pdb_layout} : Prop := {
  data_size_range :
    forall bytes,
      0 <= pt_data_boundary_data_size bytes <
      2 ^ pt_data_boundary_data_size_bits;
  data_size_bits_range : 0 <= pt_data_boundary_data_size_bits <= 62;
  metadata_in_header :
    0 <= SYSCALL_METADATA_SIZE < PT_DATA_PDB_HEADER_SIZE;
  header_small : PT_DATA_PDB_HEADER_SIZE <= 2 ^ 62
}.

(** ** An example layout and an example file *)

(** The value of a little-endian sequence of bytes. *)
Fixpoint le_decode (bytes : list byte) : Z :=
  match bytes with
  | [] => 0
  | b :: rest => Z.of_N (Byte.to_N b) + 256 * le_decode rest
  end.

(** The [n] little-endian bytes of a value. *)
Fixpoint le_encode (n : nat) (z : Z) : list byte :=
  match n with
  | O => []
  | S n' =>
      default Byte.x00 (Byte.of_N (Z.to_N (z mod 256))) ::
      le_encode n' (z / 256)
  end.

(** A layout with 8-byte entries whose upper 16 bits hold the type, a PT
    metadata header of 2 entries, a PT data header of 5 entries of which
    the last 2 are syscall metadata. *)
Definition example_layout : pdb_layout :=
  {| sizeof_syscall_pt_entry_t := 8;
     PT_METADATA_PDB_HEADER_SIZE := 16;
     PT_METADATA_PDB_DATA_OFFSET := 16;
     PT_DATA_PDB_HEADER_SIZE := 40;
     PT_DATA_PDB_DATA_OFFSET := 40;
     SYSCALL_METADATA_SIZE := 16;
     PDB_HEADER_DATA_BOUNDARY_IDX := 1;
     PDB_HEADER_NUM_ARGS_IDX := 4;
     SYSCALL_PT_ENTRY_TYPE_PT_METADATA_BOUNDARY := 1;
     SYSCALL_PT_ENTRY_TYPE_PT_DATA_BOUNDARY := 2;
     pt_metadata_boundary_type := fun bytes => le_decode bytes / 2 ^ 48;
     pt_metadata_boundary_data_size := fun bytes => le_decode bytes mod 2 ^ 48;
     pt_data_boundary_type := fun bytes => le_decode bytes / 2 ^ 48;
     pt_data_boundary_data_size := fun bytes => le_decode bytes mod 2 ^ 48;
     pt_data_boundary_data_size_bits := 48;
     syscall_args_num_args_num := fun bytes => le_decode bytes mod 2 ^ 48 |}.

Definition example_entry (type value : Z) : list byte :=
  le_encode 8 (type * 2 ^ 48 + value).

(** A file of 56 bytes: a metadata header that declares no metadata, then
    one PT data header whose [data_size] of 0 is less than the syscall
    metadata it should at least cover. *)
Definition underflow_file : list byte :=
  example_entry 0 0 ++ example_entry 1 0 ++
  example_entry 0 0 ++ example_entry 2 0 ++ example_entry 0 0 ++
  example_entry 0 0 ++ example_entry 0 0.

(** A converter that accepts whatever it is given and counts its calls. *)
Definition accept_all (pt_data pt_data_size : Z) (calls : nat) : bool * nat :=
  (true, S calls).

End Drpt2trace.

(* ===================================================================== *)
(** * Properties of the scheduler                                         *)
(* ===================================================================== *)

Module SchedulerRuns.
Import Scheduler.

(** ** The primitive transitions *)

Lemma release_inputs o s : st_inputs (release o s) = st_inputs s.
Proof.
  unfold release. destruct (st_outputs s !! o) as [out|]; [|done].
  by destruct (out_input out).
Qed.

Lemma release_options o s : st_options (release o s) = st_options s.
Proof.
  unfold release. destruct (st_outputs s !! o) as [out|]; [|done].
  by destruct (out_input out).
Qed.

Lemma release_error o s : st_error (release o s) = st_error s.
Proof.
  unfold release. destruct (st_outputs s !! o) as [out|]; [|done].
  by destruct (out_input out).
Qed.

Lemma release_replay o s : st_replay (release o s) = st_replay s.
Proof.
  unfold release. destruct (st_outputs s !! o) as [out|]; [|done].
  by destruct (out_input out).
Qed.

Lemma release_outputs_length o s :
  length (st_outputs (release o s)) = length (st_outputs s).
Proof.
  unfold release. destruct (st_outputs s !! o) as [out|]; [|done].
  destruct (out_input out); [|done]. cbn. by rewrite length_insert.
Qed.

Lemma assign_inputs o j lim s : st_inputs (assign o j lim s) = st_inputs s.
Proof.
  unfold assign. destruct (st_outputs s !! o); [|done].
  by destruct (st_inputs s !! j).
Qed.

(** After [assign o j], output [o] holds [j], provided both exist. *)
Lemma assign_holds o j lim s out inp :
  st_outputs (assign o j lim s) !! o = Some out ->
  st_inputs s !! j = Some inp ->
  out_input out = Some j.
Proof.
  unfold assign. intros Hout Hinp. rewrite Hinp in Hout.
  destruct (st_outputs s !! o) as [out0|] eqn:Ho; [|by rewrite Ho in Hout].
  cbn in Hout. rewrite list_lookup_insert_eq in Hout
    by (by eapply lookup_lt_Some).
  by simplify_eq.
Qed.

(** What [emit] does: it hands over the head of the input's remaining
    records and nothing else of any input changes, or it fails and no input
    changes at all. *)
Lemma emit_spec o j s res s' :
  emit o j s = (res, s') ->
  match res with
  | PULL_RECORD r =>
      exists out inp rest,
        st_outputs s !! o = Some out /\
        st_inputs s !! j = Some inp /\
        in_rest inp = r :: rest /\
        st_inputs s' = <[j := consume_input inp r rest]> (st_inputs s) /\
        get_input_stream_ordinal o s' = out_input out
  | PULL_ERROR _ => st_inputs s' = st_inputs s
  | _ => False
  end.
Proof.
  unfold emit. intros Hemit.
  destruct (st_outputs s !! o) as [out|] eqn:Ho; [|by simplify_eq].
  destruct (st_inputs s !! j) as [inp|] eqn:Hj; [|by simplify_eq].
  destruct (in_rest inp) as [|r rest] eqn:Hrest; simplify_eq; [done|].
  exists out, inp, rest. repeat split; try done.
  unfold get_input_stream_ordinal. cbn.
  rewrite list_lookup_insert_eq by (by eapply lookup_lt_Some). done.
Qed.

Lemma emit_effect o j s res s' s0 :
  emit o j s = (res, s') ->
  st_inputs s = st_inputs s0 ->
  (forall out, st_outputs s !! o = Some out -> is_Some (st_inputs s !! j) ->
               out_input out = Some j) ->
  res <> PULL_WAIT /\ res <> PULL_EXHAUSTED /\ pull_effect o s0 res s'.
Proof.
  intros Hemit Hin Hheld. apply emit_spec in Hemit.
  destruct res as [r| | |msg]; try done.
  - destruct Hemit as (out & inp & rest & Ho & Hj & Hrest & Hins & Hget).
    repeat split; try done. exists j, inp, rest.
    rewrite <- Hin. repeat split; try done.
    rewrite Hget. apply Hheld; [done | by eexists].
  - repeat split; try done. cbn. by rewrite Hemit.
Qed.

Lemma pull_free_effect o out s res s' :
  st_outputs s !! o = Some out ->
  pull_free o out s = (res, s') ->
  res <> PULL_EXHAUSTED /\ pull_effect o s res s'.
Proof.
  intros Ho. unfold pull_free.
  destruct (keeps_input s out) as [i|] eqn:Hkeep.
  - intros Hemit.
    destruct (emit_effect o i s res s' s Hemit eq_refl) as (_ & ? & ?);
      [|done].
    intros out' Ho' _. rewrite Ho in Ho'. simplify_eq.
    unfold keeps_input in Hkeep. destruct (out_input out') as [i'|]; [|done].
    destruct (st_inputs s !! i'); [|done]. by case_match; simplify_eq.
  - destruct (pick_free (release o s)) as [j|].
    + intros Hemit.
      destruct (emit_effect o j _ res s' s Hemit) as (_ & ? & ?); [| |done].
      * by rewrite assign_inputs, release_inputs.
      * intros out' Ho' [inp Hinp]. rewrite assign_inputs in Hinp.
        by eapply assign_holds.
    + intros [= <- <-]. split; [done|]. cbn. apply release_inputs.
Qed.

Lemma next_run_effect as_traced o s res s' :
  next_run as_traced o s = (res, s') ->
  res <> PULL_EXHAUSTED /\ pull_effect o s res s'.
Proof.
  unfold next_run.
  destruct (take_entry as_traced (release o s) o (st_replay (release o s)))
    as [[e| | |msg] rest].
  - intros Hemit.
    destruct (emit_effect o (se_input e) _ res s' s Hemit) as (_ & ? & ?);
      [| |done].
    + rewrite assign_inputs. cbn. apply release_inputs.
    + intros out' Ho' [inp Hinp]. rewrite assign_inputs in Hinp.
      by eapply assign_holds.
  - intros [= <- <-]. split; [done|]. cbn. apply release_inputs.
  - intros [= <- <-]. split; [done|]. cbn. apply release_inputs.
  - intros [= <- <-]. split; [done|]. cbn. apply release_inputs.
Qed.

Lemma pull_replay_effect as_traced o out s res s' :
  st_outputs s !! o = Some out ->
  pull_replay as_traced o out s = (res, s') ->
  res <> PULL_EXHAUSTED /\ pull_effect o s res s'.
Proof.
  intros Ho. unfold pull_replay.
  destruct (out_input out) as [i|] eqn:Hheld;
    [|by apply next_run_effect].
  destruct (run_complete out); [by apply next_run_effect|].
  destruct (st_inputs s !! i) as [inp|] eqn:Hi;
    [|by intros [= <- <-]].
  destruct (input_exhausted inp).
  - destruct as_traced; [by apply next_run_effect | by intros [= <- <-]].
  - intros Hemit.
    destruct (emit_effect o i s res s' s Hemit eq_refl) as (_ & ? & ?);
      [|done].
    intros out' Ho' _. rewrite Ho in Ho'. by simplify_eq.
Qed.

(** One pull changes no input, except that a pull that returns a record
    has taken it from the head of the input its output then holds; and a
    pull returns [exhausted] only when no input has a record left. *)
Lemma pull_spec o s res s' :
  pull o s = (res, s') ->
  pull_effect o s res s' /\
  (res = PULL_EXHAUSTED -> all_exhausted s = true).
Proof.
  unfold pull. destruct (st_error s); [by intros [= <- <-]|].
  destruct (st_outputs s !! o) as [out|] eqn:Ho; [|by intros [= <- <-]].
  destruct (all_exhausted s).
  { intros [= <- <-]. split; [|done]. cbn. apply release_inputs. }
  destruct (mapping (st_options s)); intros Hpull.
  - by destruct (pull_free_effect o out s res s' Ho Hpull).
  - by destruct (pull_replay_effect false o out s res s' Ho Hpull).
  - by destruct (pull_replay_effect true o out s res s' Ho Hpull).
Qed.

(** ** Runs *)

Lemma run_cons o pulls s :
  run (o :: pulls) s =
  ({| pe_output := o; pe_result := (pull o s).1;
      pe_input := get_input_stream_ordinal o (pull o s).2 |}
   :: (run pulls (pull o s).2).1,
   (run pulls (pull o s).2).2).
Proof.
  simpl. destruct (pull o s) as [res s1]. simpl.
  by destruct (run pulls s1) as [evs s2].
Qed.


Lemma pull_inputs_length o s :
  length (st_inputs (pull o s).2) = length (st_inputs s).
Proof.
  destruct (pull o s) as [res s'] eqn:Hpull.
  apply pull_spec in Hpull as [Heff _]. cbn.
  destruct res; cbn in Heff; try by rewrite Heff.
  destruct Heff as (j & inp & rest & _ & _ & _ & ->).
  by rewrite length_insert.
Qed.

Lemma run_inputs_length pulls :
  forall s, length (st_inputs (run pulls s).2) = length (st_inputs s).
Proof.
  induction pulls as [|o pulls IH]; intros s; [done|].
  rewrite run_cons. cbn. by rewrite IH, pull_inputs_length.
Qed.



Lemma all_exhausted_lookup s i inp :
  all_exhausted s = true -> st_inputs s !! i = Some inp -> in_rest inp = [].
Proof.
  unfold all_exhausted. intros Hall Hi.
  apply Is_true_true, forallb_True in Hall.
  rewrite Forall_lookup in Hall. specialize (Hall i inp Hi).
  unfold input_exhausted in Hall. by destruct (in_rest inp).
Qed.




Lemma init_inputs ws cores ops s0 :
  init ws cores ops = inr s0 ->
  st_inputs s0 = new_input <$> concat (wl_streams <$> ws).
Proof.
  unfold init. repeat case_match; intros ?; by simplify_eq.
Qed.


(** ** Replay and the settings of the resolver and of the quantum *)








(** ** Replaying a recorded schedule *)

Ltac simpl_state :=
  cbn [st_options st_inputs st_outputs st_log st_replay st_error
       set_inputs set_outputs set_log set_replay set_error] in *.


Lemma sum_list_with_insert {A} (f : A -> nat) (l : list A) o x old :
  l !! o = Some old ->
  sum_list_with f (<[o := x]> l) + f old = sum_list_with f l + f x.
Proof.
  revert o. induction l as [|a l IH]; intros [|o] Ho; simplify_eq/=.
  - lia.
  - specialize (IH o Ho). lia.
Qed.

Lemma granted_app i l1 l2 : granted i (l1 ++ l2) = granted i l1 + granted i l2.
Proof. apply sum_list_with_app. Qed.

Lemma granted_singleton i e :
  granted i [e] = if (se_input e =? i)%nat then se_duration e else 0.
Proof. cbn. lia. Qed.

Lemma entry_ok_iff M N e :
  entry_ok M N e = true <->
  se_output e < M /\ se_input e < N /\ 0 < se_duration e.
Proof.
  unfold entry_ok. rewrite !andb_true_iff, !Nat.ltb_lt. tauto.
Qed.

Lemma wf_weaken x T s : wf T s -> wf_ex x T s.
Proof. intros []. split; eauto. Qed.

Lemma holds_true i out : out_input out = Some i -> holds i out = true.
Proof. intros H. unfold holds. by rewrite bool_decide_eq_true_2. Qed.

Lemma holds_other i j out : out_input out = Some i -> i <> j -> holds j out = false.
Proof. intros H Hne. unfold holds. rewrite bool_decide_eq_false_2; [done|]. congruence. Qed.

Lemma holds_none i out : out_input out = None -> holds i out = false.
Proof. intros H. unfold holds. rewrite bool_decide_eq_false_2; [done|]. congruence. Qed.

Lemma release_idle o s out :
  st_outputs s !! o = Some out -> out_input out = None -> release o s = s.
Proof. intros Ho Hi. unfold release. by rewrite Ho, Hi. Qed.

Lemma release_held o s out i :
  st_outputs s !! o = Some out -> out_input out = Some i ->
  release o s =
  set_log (set_outputs s (<[o := unassign out]> (st_outputs s)))
          (st_log s ++ [run_entry o i out]).
Proof. intros Ho Hi. unfold release. by rewrite Ho, Hi. Qed.

Lemma release_lookup o s out :
  st_outputs s !! o = Some out ->
  st_outputs (release o s) !! o = Some (if is_set (out_input out) then unassign out else out).
Proof.
  intros Ho. destruct (out_input out) as [i|] eqn:Hi.
  - rewrite (release_held o s out i) by done. cbn.
    apply list_lookup_insert_eq. by eapply lookup_lt_Some.
  - by rewrite (release_idle o s out).
Qed.

Lemma release_makes_idle o s out :
  st_outputs s !! o = Some out ->
  exists out1, st_outputs (release o s) !! o = Some out1 /\
               out_input out1 = None.
Proof.
  intros Ho. eexists. split; [by apply release_lookup|].
  by destruct (out_input out) eqn:E.
Qed.

Lemma wf_release o T s : wf T s -> wf T (release o s).
Proof.
  intros Hwf. destruct (st_outputs s !! o) as [out|] eqn:Ho;
    [|unfold release; by rewrite Ho].
  destruct (out_input out) as [i|] eqn:Hi;
    [|by rewrite (release_idle o s out)].
  rewrite (release_held o s out i) by done.
  destruct Hwf as [Hlog Hvalid Hstarted Hcount Htotal].
  split; simpl_state; rewrite ?length_insert.
  - apply Forall_app_2; [done|]. repeat constructor.
    apply entry_ok_iff. cbn.
    apply lookup_lt_Some in Ho as Hlt.
    specialize (Hvalid o out i Ho Hi).
    specialize (Hstarted o out i ltac:(done) Ho Hi). lia.
  - intros o' out' i' Ho' Hi'.
    destruct (decide (o = o')) as [<-|Hne].
    + rewrite list_lookup_insert_eq in Ho' by (by eapply lookup_lt_Some). by simplify_eq.
    + rewrite list_lookup_insert_ne in Ho' by done. eauto.
  - intros o' out' i' _ Ho' Hi'.
    destruct (decide (o = o')) as [<-|Hne].
    + rewrite list_lookup_insert_eq in Ho' by (by eapply lookup_lt_Some). by simplify_eq.
    + rewrite list_lookup_insert_ne in Ho' by done. eapply Hstarted; done.
  - intros i' inp Hinp. rewrite (Hcount i' inp Hinp), granted_app, granted_singleton.
    pose proof (sum_list_with_insert
      (fun out => if holds i' out then out_run_records out else 0)
      (st_outputs s) o (unassign out) out Ho) as Hsum.
    unfold running. cbn in *. rewrite (holds_none i' (unassign out)) in Hsum by done.
    destruct (decide (i = i')) as [<-|Hne].
    + rewrite Nat.eqb_refl. rewrite (holds_true i out) in Hsum by done. lia.
    + rewrite (proj2 (Nat.eqb_neq i i')) by done.
      rewrite (holds_other i i' out) in Hsum by done. lia.
  - done.
Qed.

Lemma emit_ok o j s out inp r rest :
  st_outputs s !! o = Some out -> st_inputs s !! j = Some inp ->
  in_rest inp = r :: rest ->
  emit o j s =
  (PULL_RECORD r,
   set_outputs (set_inputs s (<[j := consume_input inp r rest]> (st_inputs s)))
               (<[o := count_output out r]> (st_outputs s))).
Proof. intros Ho Hj Hrest. unfold emit. by rewrite Ho, Hj, Hrest. Qed.

Lemma wf_set_replay x T s l : wf_ex x T s -> wf_ex x T (set_replay s l).
Proof. intros []. by split. Qed.

Lemma wf_set_error x T s msg : wf_ex x T s -> wf_ex x T (set_error s msg).
Proof. intros []. by split. Qed.

(** Handing a record of input [i] to output [o], which holds it. *)
Lemma wf_emit o i T s out inp r rest :
  wf_ex (Some o) T s ->
  st_outputs s !! o = Some out -> out_input out = Some i ->
  st_inputs s !! i = Some inp -> in_rest inp = r :: rest ->
  wf T (set_outputs
          (set_inputs s (<[i := consume_input inp r rest]> (st_inputs s)))
          (<[o := count_output out r]> (st_outputs s))).
Proof.
  intros [Hlog Hvalid Hstarted Hcount Htotal] Ho Hheld Hi Hrest.
  apply lookup_lt_Some in Ho as Hlto. apply lookup_lt_Some in Hi as Hlti.
  split; simpl_state; rewrite ?length_insert.
  - done.
  - intros o' out' i' Ho' Hi'.
    destruct (decide (o = o')) as [<-|Hne].
    + rewrite list_lookup_insert_eq in Ho' by done. simplify_eq. cbn in Hi'. eauto.
    + rewrite list_lookup_insert_ne in Ho' by done. eauto.
  - intros o' out' i' _ Ho' Hi'.
    destruct (decide (o = o')) as [<-|Hne].
    + rewrite list_lookup_insert_eq in Ho' by done. simplify_eq. cbn. lia.
    + rewrite list_lookup_insert_ne in Ho' by done.
      eapply Hstarted; [|done..]. congruence.
  - intros i' inp' Hi''.
    pose proof (sum_list_with_insert
      (fun out => if holds i' out then out_run_records out else 0)
      (st_outputs s) o (count_output out r) out Ho) as Hsum.
    cbn beta in Hsum.
    unfold running.
    destruct (decide (i = i')) as [<-|Hne].
    + rewrite list_lookup_insert_eq in Hi'' by done. simplify_eq.
      rewrite (holds_true i out), (holds_true i (count_output out r)) in Hsum by done.
      specialize (Hcount i inp Hi). unfold running in Hcount. cbn in *. lia.
    + rewrite list_lookup_insert_ne in Hi'' by done.
      rewrite (holds_other i i' out), (holds_other i i' (count_output out r)) in Hsum by done.
      specialize (Hcount i' inp' Hi''). unfold running in Hcount. lia.
  - intros i' inp' Hi''.
    destruct (decide (i = i')) as [<-|Hne].
    + rewrite list_lookup_insert_eq in Hi'' by done. simplify_eq.
      rewrite (Htotal i inp Hi), Hrest. cbn. f_equal. lia.
    + rewrite list_lookup_insert_ne in Hi'' by done. eauto.
Qed.

Lemma assign_ok o j lim s out inp :
  st_outputs s !! o = Some out -> st_inputs s !! j = Some inp ->
  assign o j lim s =
  set_outputs s (<[o := fresh_run j lim inp out]> (st_outputs s)).
Proof. intros Ho Hj. unfold assign. by rewrite Ho, Hj. Qed.

(** Giving input [j] to the idle output [o]. *)
Lemma wf_assign o j lim T s out inp :
  wf T s ->
  st_outputs s !! o = Some out -> out_input out = None ->
  st_inputs s !! j = Some inp ->
  wf_ex (Some o) T (set_outputs s (<[o := fresh_run j lim inp out]> (st_outputs s))).
Proof.
  intros [Hlog Hvalid Hstarted Hcount Htotal] Ho Hidle Hj.
  apply lookup_lt_Some in Ho as Hlto. apply lookup_lt_Some in Hj as Hltj.
  split; simpl_state; rewrite ?length_insert.
  - done.
  - intros o' out' i' Ho' Hi'.
    destruct (decide (o = o')) as [<-|Hne].
    + rewrite list_lookup_insert_eq in Ho' by done. simplify_eq.
      cbn in Hi'. by simplify_eq.
    + rewrite list_lookup_insert_ne in Ho' by done. eauto.
  - intros o' out' i' Hx Ho' Hi'.
    destruct (decide (o = o')) as [<-|Hne]; [done|].
    rewrite list_lookup_insert_ne in Ho' by done.
    eapply Hstarted; done.
  - intros i' inp' Hi'.
    pose proof (sum_list_with_insert
      (fun out => if holds i' out then out_run_records out else 0)
      (st_outputs s) o (fresh_run j lim inp out) out Ho) as Hsum.
    cbn beta in Hsum.
    unfold running. rewrite (holds_none i' out) in Hsum by done.
    specialize (Hcount i' inp' Hi'). unfold running in Hcount.
    cbn in Hsum. destruct (holds i' (fresh_run j lim inp out)); lia.
  - done.
Qed.

(** The smallest-timestamp choice is one of the candidates. *)
Lemma min_timestamp_input_in s l j :
  min_timestamp_input s l = Some j -> j ∈ l.
Proof.
  unfold min_timestamp_input.
  assert (Hgen : forall best,
             foldl (fun best j =>
                      match best with
                      | None => Some j
                      | Some b => if (timestamp_of s j <? timestamp_of s b)%Z
                                  then Some j else Some b
                      end) best l = Some j ->
             best = Some j \/ j ∈ l).
  { induction l as [|a l IH]; intros best Hf; [by left|].
    cbn in Hf. apply IH in Hf as [Hf|Hf]; [|right; by right].
    destruct best as [b|]; [|simplify_eq; right; by left].
    destruct (timestamp_of s a <? timestamp_of s b)%Z; simplify_eq;
      [right; by left | by left]. }
  intros Hf. by destruct (Hgen None Hf).
Qed.

Lemma unassigned_live_spec s j :
  j ∈ unassigned_live s ->
  exists inp, st_inputs s !! j = Some inp /\
              input_exhausted inp = false /\ assigned s j = false.
Proof.
  unfold unassigned_live. intros Hin.
  apply list_elem_of_In, List.filter_In in Hin as [_ Hj].
  destruct (st_inputs s !! j) as [inp|]; [|done].
  apply andb_true_iff in Hj as [H1 H2].
  apply negb_true_iff in H1, H2. eauto.
Qed.

Lemma pick_free_live s j :
  pick_free s = Some j ->
  exists inp, st_inputs s !! j = Some inp /\
              input_exhausted inp = false /\ assigned s j = false.
Proof.
  unfold pick_free. intros Hpick. apply min_timestamp_input_in in Hpick.
  apply list_elem_of_In, List.filter_In in Hpick as [Hin _].
  by apply unassigned_live_spec, list_elem_of_In.
Qed.

Lemma not_exhausted_cons inp :
  input_exhausted inp = false -> exists r rest, in_rest inp = r :: rest.
Proof. unfold input_exhausted. destruct (in_rest inp); [done|eauto]. Qed.

(** An entry the replayer takes names a live input no output holds. *)
Lemma take_entry_live b s o log e rest :
  take_entry b s o log = (TAKE e, rest) ->
  se_output e = o /\
  exists inp, st_inputs s !! se_input e = Some inp /\
              input_exhausted inp = false /\ assigned s (se_input e) = false.
Proof.
  revert rest. induction log as [|a log IH]; intros rest Htake; [done|].
  cbn in Htake. destruct (se_output a =? o)%nat eqn:Ho.
  - destruct (st_inputs s !! se_input a) as [inp|] eqn:Hi; [|done].
    destruct (input_exhausted inp) eqn:Hex.
    + destruct b; [by eapply IH | done].
    + destruct (assigned s (se_input a)) eqn:Has; [done|]. simplify_eq.
      apply Nat.eqb_eq in Ho. eauto.
  - destruct (take_entry b s o log) as [res rest']. simplify_eq. by eapply IH.
Qed.

(** A reassignment followed by the first record of the new run. *)
Lemma wf_assign_emit o j lim T s out inp :
  wf T s ->
  st_outputs s !! o = Some out -> out_input out = None ->
  st_inputs s !! j = Some inp -> input_exhausted inp = false ->
  exists r, (emit o j (assign o j lim s)).1 = PULL_RECORD r /\
            wf T (emit o j (assign o j lim s)).2.
Proof.
  intros Hwf Ho Hidle Hj Hlive.
  destruct (not_exhausted_cons inp Hlive) as (r & rest & Hrest).
  apply lookup_lt_Some in Ho as Hlt.
  rewrite (assign_ok o j lim s out inp) by done.
  erewrite emit_ok; [| simpl_state; by apply list_lookup_insert_eq | done | done].
  exists r. split; [done|]. cbn [snd].
  eapply wf_emit; [by eapply wf_assign | | done | done | done].
  simpl_state. by apply list_lookup_insert_eq.
Qed.

Lemma wf_emit_held o i T s out inp :
  wf T s ->
  st_outputs s !! o = Some out -> out_input out = Some i ->
  st_inputs s !! i = Some inp -> input_exhausted inp = false ->
  exists r, (emit o i s).1 = PULL_RECORD r /\ wf T (emit o i s).2.
Proof.
  intros Hwf Ho Hheld Hi Hlive.
  destruct (not_exhausted_cons inp Hlive) as (r & rest & Hrest).
  erewrite emit_ok by done. exists r. split; [done|]. cbn [snd].
  eapply wf_emit; [by apply wf_weaken | done..].
Qed.

Lemma keeps_input_spec s out i :
  keeps_input s out = Some i ->
  out_input out = Some i /\
  exists inp, st_inputs s !! i = Some inp /\ input_exhausted inp = false.
Proof.
  unfold keeps_input. destruct (out_input out) as [i'|]; [|done].
  destruct (st_inputs s !! i') as [inp|] eqn:Hi; [|done].
  destruct (input_exhausted inp) eqn:Hex; [done|].
  case_match; [|done]. intros [= <-]. eauto.
Qed.

Lemma wf_next_run b o T s out :
  wf T s -> st_outputs s !! o = Some out -> wf T (next_run b o s).2.
Proof.
  intros Hwf Ho. unfold next_run.
  pose proof (wf_release o T s Hwf) as Hwf1.
  destruct (release_makes_idle o s out Ho) as (out1 & Ho1 & Hidle).
  destruct (take_entry b (release o s) o (st_replay (release o s)))
    as [[e| | |msg] rest] eqn:Htake; cbn [snd];
    try (by apply wf_set_replay); try (by apply wf_set_error).
  apply take_entry_live in Htake as (_ & inp & Hi & Hlive & _).
  edestruct (wf_assign_emit o (se_input e) (Some (se_duration e)) T
               (set_replay (release o s) rest)) as (r & _ & Hwf2);
    [by apply wf_set_replay | exact Ho1 | exact Hidle
    | exact Hi | done | done].
Qed.

(** Every pull keeps the state well-formed. *)
Lemma wf_pull o T s : wf T s -> wf T (pull o s).2.
Proof.
  intros Hwf. unfold pull. destruct (st_error s); [done|].
  destruct (st_outputs s !! o) as [out|] eqn:Ho; [|done].
  destruct (all_exhausted s); [by apply wf_release|].
  destruct (mapping (st_options s)).
  - unfold pull_free. destruct (keeps_input s out) as [i|] eqn:Hkeep.
    + apply keeps_input_spec in Hkeep as (Hheld & inp & Hi & Hlive).
      by edestruct (wf_emit_held o i T s out inp) as (r & _ & Hwf').
    + pose proof (wf_release o T s Hwf) as Hwf1.
      destruct (release_makes_idle o s out Ho) as (out1 & Ho1 & Hidle).
      destruct (pick_free (release o s)) as [j|] eqn:Hpick; [|done].
      apply pick_free_live in Hpick as (inp & Hj & Hlive & _).
      edestruct (wf_assign_emit o j None T (release o s)) as (r & _ & Hwf2);
        [done | exact Ho1 | exact Hidle | exact Hj | done | done].
  - unfold pull_replay. destruct (out_input out) as [i|] eqn:Hheld;
      [|by eapply wf_next_run].
    destruct (run_complete out); [by eapply wf_next_run|].
    destruct (st_inputs s !! i) as [inp|] eqn:Hi; [|by apply wf_set_error].
    destruct (input_exhausted inp) eqn:Hex; [by apply wf_set_error|].
    by edestruct (wf_emit_held o i T s out inp) as (r & _ & Hwf').
  - unfold pull_replay. destruct (out_input out) as [i|] eqn:Hheld;
      [|by eapply wf_next_run].
    destruct (run_complete out); [by eapply wf_next_run|].
    destruct (st_inputs s !! i) as [inp|] eqn:Hi; [|by apply wf_set_error].
    destruct (input_exhausted inp) eqn:Hex; [by eapply wf_next_run|].
    by edestruct (wf_emit_held o i T s out inp) as (r & _ & Hwf').
Qed.

Lemma wf_run pulls : forall T s, wf T s -> wf T (run pulls s).2.
Proof.
  induction pulls as [|o pulls IH]; intros T s Hwf; [done|].
  rewrite run_cons. cbn [snd]. by apply IH, wf_pull.
Qed.

Lemma running_idle i n : running i (replicate n idle_output) = 0.
Proof. induction n as [|n IH]; [done|]. unfold running in *. cbn. by rewrite IH. Qed.

Lemma init_outputs ws cores ops s0 :
  init ws cores ops = inr s0 ->
  st_outputs s0 = replicate (Z.to_nat cores) idle_output /\ st_log s0 = [] /\
  st_error s0 = None /\ st_options s0 = ops /\
  load_replay ops (Z.to_nat cores) (st_inputs s0) = Some (st_replay s0).
Proof.
  unfold init. repeat case_match; intros ?; by simplify_eq.
Qed.

Lemma wf_init ws cores ops s0 :
  init ws cores ops = inr s0 -> wf (stream_lengths ws) s0.
Proof.
  intros Hinit. pose proof (init_inputs _ _ _ _ Hinit) as Hin.
  destruct (init_outputs _ _ _ _ Hinit) as (Hout & Hlog & _).
  split.
  - rewrite Hlog. constructor.
  - intros o out i Ho Hi. rewrite Hout in Ho.
    apply lookup_replicate in Ho as [-> _]. done.
  - intros o out i _ Ho Hi. rewrite Hout in Ho.
    apply lookup_replicate in Ho as [-> _]. done.
  - intros i inp Hi. rewrite Hin, list_lookup_fmap in Hi.
    destruct (concat (wl_streams <$> ws) !! i); simplify_eq/=.
    by rewrite Hlog, Hout, running_idle.
  - intros i inp Hi. rewrite Hin, list_lookup_fmap in Hi.
    unfold stream_lengths. rewrite list_lookup_fmap.
    destruct (concat (wl_streams <$> ws) !! i); by simplify_eq/=.
Qed.

(** What the open runs grant is what they have consumed. *)
Lemma granted_open_runs_from i outs :
  forall k, granted i (open_runs_from k outs) = running i outs.
Proof.
  induction outs as [|out outs IH]; intros k; [done|].
  cbn [open_runs_from]. unfold running, granted in *. cbn [sum_list_with].
  destruct (out_input out) as [j|] eqn:Hj.
  - cbn [sum_list_with se_input se_duration run_entry]. rewrite (IH (S k)).
    unfold holds. rewrite Hj.
    destruct (decide (j = i)) as [->|Hne].
    + by rewrite Nat.eqb_refl, bool_decide_eq_true_2.
    + rewrite (proj2 (Nat.eqb_neq j i)) by done.
      rewrite bool_decide_eq_false_2; [done | congruence].
  - rewrite (IH (S k)). unfold holds. rewrite Hj.
    rewrite bool_decide_eq_false_2; done.
Qed.

Lemma entries_on_app o l1 l2 :
  entries_on o (l1 ++ l2) = entries_on o l1 ++ entries_on o l2.
Proof. apply List.filter_app. Qed.

Lemma triples_on_app o l1 l2 :
  triples_on o (l1 ++ l2) = triples_on o l1 ++ triples_on o l2.
Proof. unfold triples_on. by rewrite entries_on_app, fmap_app. Qed.

(** The open run of one output. *)
Lemma entries_on_open_runs_from o outs :
  forall k,
    entries_on o (open_runs_from k outs) =
    if decide (k <= o) then
      match outs !! (o - k) with
      | Some out => match out_input out with
                    | Some i => [run_entry o i out]
                    | None => []
                    end
      | None => []
      end
    else [].
Proof.
  induction outs as [|out outs IH]; intros k.
  { cbn. by case_decide. }
  cbn [open_runs_from].
  assert (Hrest : entries_on o (open_runs_from (S k) outs) =
                  if decide (k < o) then
                    match outs !! (o - S k) with
                    | Some out => match out_input out with
                                  | Some i => [run_entry o i out]
                                  | None => []
                                  end
                    | None => []
                    end
                  else []).
  { rewrite IH. repeat case_decide; try done; lia. }
  destruct (decide (k <= o)) as [Hle|Hgt].
  - destruct (decide (k = o)) as [->|Hne].
    + rewrite Nat.sub_diag. cbn [lookup list_lookup].
      rewrite decide_False in Hrest by lia.
      destruct (out_input out) as [i|]; [|done].
      unfold entries_on in *. cbn [List.filter se_output run_entry].
      by rewrite Nat.eqb_refl, Hrest.
    + rewrite decide_True in Hrest by lia.
      replace (o - k) with (S (o - S k)) by lia. cbn [lookup list_lookup].
      destruct (out_input out) as [i|]; [|done].
      unfold entries_on in *. cbn [List.filter se_output run_entry].
      by rewrite (proj2 (Nat.eqb_neq k o)).
  - rewrite decide_False in Hrest by lia.
    destruct (out_input out) as [i|]; [|done].
    unfold entries_on in *. cbn [List.filter se_output run_entry].
    rewrite (proj2 (Nat.eqb_neq k o)) by lia. done.
Qed.

Lemma entries_on_open_runs o s :
  entries_on o (open_runs s) =
  match st_outputs s !! o with
  | Some out => match out_input out with
                | Some i => [run_entry o i out]
                | None => []
                end
  | None => []
  end.
Proof.
  unfold open_runs. rewrite entries_on_open_runs_from.
  rewrite decide_True by lia. by rewrite Nat.sub_0_r.
Qed.

Lemma open_runs_ok T s :
  wf T s ->
  Forall (fun e => entry_ok (length (st_outputs s)) (length (st_inputs s)) e = true)
         (open_runs s).
Proof.
  intros [_ Hvalid Hstarted _ _]. unfold open_runs.
  assert (Hgen : forall k outs,
             (forall o out i, outs !! o = Some out -> out_input out = Some i ->
                              k + o < length (st_outputs s) /\
                              i < length (st_inputs s) /\
                              1 <= out_run_records out) ->
             Forall (fun e => entry_ok (length (st_outputs s))
                                       (length (st_inputs s)) e = true)
                    (open_runs_from k outs)).
  { intros k outs. revert k. induction outs as [|out outs IH]; intros k Hall.
    { constructor. }
    cbn [open_runs_from].
    assert (Hrest : Forall (fun e => entry_ok (length (st_outputs s))
                                       (length (st_inputs s)) e = true)
                      (open_runs_from (S k) outs)).
    { apply IH. intros o out' i Ho Hi.
      destruct (Hall (S o) out' i Ho Hi) as (? & ? & ?). repeat split; [lia|done..]. }
    destruct (out_input out) as [i|] eqn:Hi; [|done].
    constructor; [|done]. apply entry_ok_iff. cbn.
    destruct (Hall 0 out i eq_refl Hi) as (? & ? & ?). lia. }
  apply Hgen. intros o out i Ho Hi. repeat split.
  - apply lookup_lt_Some in Ho. lia.
  - eauto.
  - eapply Hstarted; done.
Qed.

(** The log of a complete run fits the inputs. *)
Lemma written_consistent T s :
  wf T s -> length T = length (st_inputs s) -> all_exhausted s = true ->
  consistent (length (st_outputs s)) T (written s).
Proof.
  intros Hwf Hlen Hall. split.
  - rewrite Hlen. unfold written. apply Forall_app_2.
    + by destruct Hwf.
    + by eapply open_runs_ok.
  - intros i t Hi.
    assert (Hlt : i < length (st_inputs s)).
    { rewrite <- Hlen. by eapply lookup_lt_Some. }
    apply lookup_lt_is_Some in Hlt as [inp Hinp].
    destruct Hwf as [_ _ _ Hcount Htotal].
    specialize (Hcount i inp Hinp). specialize (Htotal i inp Hinp).
    rewrite (all_exhausted_lookup s i inp Hall Hinp) in Htotal.
    unfold written, open_runs. rewrite granted_app, granted_open_runs_from.
    cbn in Htotal. rewrite Hi in Htotal. simplify_eq. lia.
Qed.

Lemma take_entry_recorded s o log res rest :
  take_entry false s o log = (res, rest) ->
  match res with
  | TAKE e =>
      exists l1 l2, log = l1 ++ e :: l2 /\ rest = l1 ++ l2 /\
                    entries_on o l1 = [] /\ se_output e = o
  | TAKE_NONE => rest = log /\ entries_on o log = []
  | TAKE_BUSY =>
      rest = log /\ exists e, e ∈ log /\ assigned s (se_input e) = true
  | TAKE_ERROR _ =>
      exists e, e ∈ log /\
                (st_inputs s !! se_input e = None \/
                 exists inp, st_inputs s !! se_input e = Some inp /\
                             input_exhausted inp = true)
  end.
Proof.
  revert res rest. induction log as [|a log IH]; intros res rest Htake.
  { by simplify_eq/=. }
  cbn [take_entry] in Htake. destruct (se_output a =? o)%nat eqn:Ho.
  - apply Nat.eqb_eq in Ho.
    destruct (st_inputs s !! se_input a) as [inp|] eqn:Hi.
    + destruct (input_exhausted inp) eqn:Hex.
      * simplify_eq. exists a. split; [by left|]. right. eauto.
      * destruct (assigned s (se_input a)) eqn:Has; simplify_eq.
        -- split; [done|]. exists a. split; [by left | done].
        -- by eexists [], _.
    + simplify_eq. exists a. split; [by left|]. by left.
  - destruct (take_entry false s o log) as [res' rest'] eqn:Hrec.
    specialize (IH res' rest' eq_refl). simplify_eq.
    destruct res as [e| | |msg].
    + destruct IH as (l1 & l2 & -> & -> & Hl1 & He).
      exists (a :: l1), l2. repeat split; try done.
      unfold entries_on in *. cbn. by rewrite Ho.
    + destruct IH as [-> Hnone]. split; [done|].
      unfold entries_on in *. cbn. by rewrite Ho.
    + destruct IH as [-> (e & He & Has)]. split; [done|].
      exists e. split; [by right | done].
    + destruct IH as (e & He & Hcause). exists e. split; [by right | done].
Qed.

Lemma sum_list_with_lookup {A} (f : A -> nat) (l : list A) o x :
  l !! o = Some x -> f x <= sum_list_with f l.
Proof.
  intros Ho. apply sum_list_with_in. by eapply list_elem_of_lookup_2.
Qed.

Lemma current_run_eq o s s' :
  st_outputs s' !! o = st_outputs s !! o -> current_run o s' = current_run o s.
Proof. unfold current_run. by intros ->. Qed.

Lemma triples_on_singleton o e :
  triples_on o [e] = if (se_output e =? o)%nat then [triple e] else [].
Proof. unfold triples_on, entries_on. cbn. by destruct (se_output e =? o)%nat. Qed.

(** Closing a run that has used up its duration, or closing nothing. *)
Lemma replaying_release log o s out :
  replaying log s ->
  st_outputs s !! o = Some out ->
  (forall i, out_input out = Some i ->
             out_run_limit out = Some (out_run_records out)) ->
  replaying log (release o s).
Proof.
  intros Hrp Ho Hdone.
  destruct (out_input out) as [i|] eqn:Hi;
    [|by rewrite (release_idle o s out)].
  rewrite (release_held o s out i) by done.
  specialize (Hdone i eq_refl).
  destruct Hrp as [Hmode Herr Hreplay Hlimit Howed Hhist].
  apply lookup_lt_Some in Ho as Hlt.
  split; simpl_state; rewrite ?length_insert; try done.
  - intros o' out' i' Ho' Hi'.
    destruct (decide (o = o')) as [<-|Hne].
    + rewrite list_lookup_insert_eq in Ho' by done. by simplify_eq.
    + rewrite list_lookup_insert_ne in Ho' by done. eauto.
  - intros i' inp Hinp. rewrite (Howed i' inp Hinp). f_equal.
    pose proof (sum_list_with_insert
      (fun out => if holds i' out
                  then default 0 (out_run_limit out) - out_run_records out
                  else 0)
      (st_outputs s) o (unassign out) out Ho) as Hsum.
    cbn beta in Hsum. unfold owed.
    rewrite (holds_none i' (unassign out)) in Hsum by done.
    rewrite Hdone in Hsum. cbn [from_option id] in Hsum.
    destruct (holds i' out); lia.
  - intros o'. rewrite triples_on_app, triples_on_singleton.
    cbn [se_output run_entry]. rewrite <- (Hhist o').
    destruct (decide (o = o')) as [<-|Hne].
    + rewrite Nat.eqb_refl. unfold current_run. simpl_state.
      rewrite list_lookup_insert_eq, Ho, Hi, Hdone by done. cbn.
      by rewrite <- app_assoc.
    + rewrite (proj2 (Nat.eqb_neq o o')) by done. rewrite app_nil_r.
      f_equal. f_equal. apply current_run_eq. simpl_state.
      by rewrite list_lookup_insert_ne.
Qed.

(** A record of the run in progress. *)
Lemma replaying_emit log o i s out inp r rest d :
  replaying log s ->
  st_outputs s !! o = Some out -> out_input out = Some i ->
  out_run_limit out = Some d -> out_run_records out < d ->
  st_inputs s !! i = Some inp -> in_rest inp = r :: rest ->
  replaying log
    (set_outputs
       (set_inputs s (<[i := consume_input inp r rest]> (st_inputs s)))
       (<[o := count_output out r]> (st_outputs s))).
Proof.
  intros [Hmode Herr Hreplay Hlimit Howed Hhist] Ho Hheld Hlim Hlt Hi Hrest.
  apply lookup_lt_Some in Ho as Hlto. apply lookup_lt_Some in Hi as Hlti.
  split; simpl_state; rewrite ?length_insert; try done.
  - intros o' out' i' Ho' Hi'.
    destruct (decide (o = o')) as [<-|Hne].
    + rewrite list_lookup_insert_eq in Ho' by done. simplify_eq.
      exists d. split; [done|]. cbn. lia.
    + rewrite list_lookup_insert_ne in Ho' by done. eauto.
  - intros i' inp' Hi'.
    pose proof (sum_list_with_insert
      (fun out => if holds i' out
                  then default 0 (out_run_limit out) - out_run_records out
                  else 0)
      (st_outputs s) o (count_output out r) out Ho) as Hsum.
    cbn beta in Hsum. unfold owed.
    destruct (decide (i = i')) as [<-|Hne].
    + rewrite list_lookup_insert_eq in Hi' by done. simplify_eq.
      rewrite (holds_true i out), (holds_true i (count_output out r)) in Hsum
        by done.
      specialize (Howed i inp Hi). unfold owed in Howed.
      rewrite Hrest in Howed. cbn in *. rewrite Hlim in Hsum. cbn in Hsum. lia.
    + rewrite list_lookup_insert_ne in Hi' by done.
      rewrite (holds_other i i' out), (holds_other i i' (count_output out r))
        in Hsum by done.
      specialize (Howed i' inp' Hi'). unfold owed in Howed. lia.
  - intros o'. rewrite <- (Hhist o'). f_equal. f_equal.
    unfold current_run. simpl_state.
    destruct (decide (o = o')) as [<-|Hne].
    + rewrite list_lookup_insert_eq, Ho by done. cbn. by rewrite Hheld, Hlim.
    + by rewrite list_lookup_insert_ne.
Qed.

(** In a run in progress that has not used up its duration, the input has
    a record left. *)
Lemma replaying_run_live log o i s out inp d :
  replaying log s ->
  st_outputs s !! o = Some out -> out_input out = Some i ->
  out_run_limit out = Some d -> out_run_records out < d ->
  st_inputs s !! i = Some inp ->
  input_exhausted inp = false.
Proof.
  intros [_ _ _ _ Howed _] Ho Hheld Hlim Hlt Hi.
  specialize (Howed i inp Hi).
  pose proof (sum_list_with_lookup
    (fun out => if holds i out
                then default 0 (out_run_limit out) - out_run_records out
                else 0) (st_outputs s) o out Ho) as Hle.
  cbn beta in Hle. rewrite (holds_true i out), Hlim in Hle by done.
  cbn in Hle. unfold owed in Howed. unfold input_exhausted.
  destruct (in_rest inp); [cbn in Howed; lia | done].
Qed.

Lemma granted_in i e l :
  e ∈ l -> se_input e = i -> se_duration e <= granted i l.
Proof.
  intros Hin Hi. unfold granted.
  pose proof (sum_list_with_in e
    (fun e => if (se_input e =? i)%nat then se_duration e else 0) l Hin) as H.
  cbn beta in H. by rewrite Hi, Nat.eqb_refl in H.
Qed.

(** An entry still in the log names an input with a record left. *)
Lemma replaying_entry_live log s e :
  replaying log s -> e ∈ st_replay s ->
  exists inp, st_inputs s !! se_input e = Some inp /\
              input_exhausted inp = false.
Proof.
  intros [_ _ Hreplay _ Howed _] Hin.
  rewrite Forall_forall in Hreplay. specialize (Hreplay e Hin).
  apply entry_ok_iff in Hreplay as (_ & Hvalid & Hdur).
  apply lookup_lt_is_Some in Hvalid as [inp Hinp].
  exists inp. split; [done|]. specialize (Howed _ inp Hinp).
  pose proof (granted_in (se_input e) e (st_replay s) Hin eq_refl).
  unfold input_exhausted. destruct (in_rest inp); [cbn in Howed; lia | done].
Qed.

Lemma granted_remove i l1 e l2 :
  granted i (l1 ++ e :: l2) =
  granted i (l1 ++ l2) + (if (se_input e =? i)%nat then se_duration e else 0).
Proof.
  rewrite !granted_app. unfold granted at 2. cbn [sum_list_with].
  fold (granted i l2). lia.
Qed.

Lemma triples_on_remove_first o l1 e l2 :
  entries_on o l1 = [] -> se_output e = o ->
  triples_on o (l1 ++ e :: l2) = triple e :: triples_on o (l1 ++ l2).
Proof.
  intros Hl1 He. unfold triples_on. rewrite !entries_on_app, Hl1.
  unfold entries_on at 1. cbn [List.filter]. rewrite He, Nat.eqb_refl. done.
Qed.

Lemma triples_on_remove_other o l1 e l2 :
  se_output e <> o ->
  triples_on o (l1 ++ e :: l2) = triples_on o (l1 ++ l2).
Proof.
  intros He. unfold triples_on. rewrite !entries_on_app.
  unfold entries_on at 2. cbn [List.filter].
  by rewrite (proj2 (Nat.eqb_neq _ _) He).
Qed.

Lemma switch_ok o e s out inp r rest log' :
  st_outputs s !! o = Some out -> st_inputs s !! se_input e = Some inp ->
  in_rest inp = r :: rest ->
  emit o (se_input e)
       (assign o (se_input e) (Some (se_duration e)) (set_replay s log')) =
  (PULL_RECORD r, switched o e s out inp r rest log').
Proof.
  intros Ho Hi Hrest. apply lookup_lt_Some in Ho as Hlt.
  rewrite (assign_ok o (se_input e) _ (set_replay s log') out inp) by done.
  erewrite emit_ok;
    [| simpl_state; by apply list_lookup_insert_eq | done | done].
  unfold switched. simpl_state. by rewrite list_insert_insert_eq.
Qed.

Lemma replaying_switch log o e s out inp r rest l1 l2 :
  replaying log s ->
  st_outputs s !! o = Some out -> out_input out = None ->
  st_replay s = l1 ++ e :: l2 -> entries_on o l1 = [] -> se_output e = o ->
  st_inputs s !! se_input e = Some inp -> in_rest inp = r :: rest ->
  replaying log (switched o e s out inp r rest (l1 ++ l2)).
Proof.
  intros [Hmode Herr Hreplay Hlimit Howed Hhist] Ho Hidle Hlog Hl1 He Hi Hrest.
  apply lookup_lt_Some in Ho as Hlto. apply lookup_lt_Some in Hi as Hlti.
  assert (Hdur : 0 < se_duration e).
  { rewrite Hlog, Forall_app, Forall_cons in Hreplay.
    destruct Hreplay as (_ & Hok & _). apply entry_ok_iff in Hok. lia. }
  unfold switched. split; simpl_state; rewrite ?length_insert; try done.
  - rewrite Hlog in Hreplay. rewrite Forall_app, Forall_cons in Hreplay.
    apply Forall_app. tauto.
  - intros o' out' i' Ho' Hi'.
    destruct (decide (o = o')) as [<-|Hne].
    + rewrite list_lookup_insert_eq in Ho' by done. simplify_eq.
      exists (se_duration e). split; [done|]. cbn. lia.
    + rewrite list_lookup_insert_ne in Ho' by done. eauto.
  - intros i' inp' Hi'.
    pose proof (sum_list_with_insert
      (fun out => if holds i' out
                  then default 0 (out_run_limit out) - out_run_records out
                  else 0)
      (st_outputs s) o
      (count_output (fresh_run (se_input e) (Some (se_duration e)) inp out) r)
      out Ho) as Hsum.
    cbn beta in Hsum. unfold owed.
    rewrite (holds_none i' out) in Hsum by done.
    rewrite Hlog in Howed. setoid_rewrite granted_remove in Howed.
    destruct (decide (se_input e = i')) as [<-|Hne].
    + rewrite list_lookup_insert_eq in Hi' by done. simplify_eq.
      rewrite holds_true in Hsum by done.
      specialize (Howed _ inp Hi). unfold owed in Howed.
      rewrite Hrest, Nat.eqb_refl in Howed. cbn in *. lia.
    + rewrite list_lookup_insert_ne in Hi' by done.
      rewrite (holds_other (se_input e) i') in Hsum by done.
      specialize (Howed i' inp' Hi'). unfold owed in Howed.
      rewrite (proj2 (Nat.eqb_neq _ _) Hne) in Howed. lia.
  - intros o'. rewrite <- (Hhist o'), Hlog.
    destruct (decide (o = o')) as [<-|Hne].
    + rewrite triples_on_remove_first by done.
      unfold current_run. simpl_state.
      rewrite list_lookup_insert_eq, Ho, Hidle by done. cbn.
      unfold triple. by rewrite He.
    + rewrite triples_on_remove_other by congruence.
      f_equal. f_equal. apply current_run_eq. simpl_state.
      by rewrite list_lookup_insert_ne.
Qed.

Lemma set_replay_same s : set_replay s (st_replay s) = s.
Proof. by destruct s. Qed.

Lemma replaying_pull_cases log T o s :
  wf T s -> replaying log s ->
  replay_pull o s (pull o s).1 (pull o s).2 /\ replaying log (pull o s).2.
Proof.
  intros Hwf Hrp. unfold pull.
  rewrite (rp_error log s Hrp), (rp_mode log s Hrp).
  destruct (st_outputs s !! o) as [out|] eqn:Ho; [|split; [by constructor|done]].
  (* the run an output holds is complete when no input has a record left *)
  assert (Hnext : forall (Hdone : forall i, out_input out = Some i ->
                        out_run_limit out = Some (out_run_records out)),
             replay_pull o s (next_run false o s).1 (next_run false o s).2 /\
             replaying log (next_run false o s).2).
  { intros Hdone. unfold next_run.
    pose proof (replaying_release log o s out Hrp Ho Hdone) as Hrp1.
    destruct (release_makes_idle o s out Ho) as (out1 & Ho1 & Hidle).
    rewrite release_replay.
    destruct (take_entry false (release o s) o (st_replay s))
      as [res rest] eqn:Htake.
    pose proof (take_entry_recorded _ _ _ _ _ Htake) as Hspec.
    destruct res as [e| | |msg].
    - destruct Hspec as (l1 & l2 & Hlog & -> & Hl1 & He).
      apply take_entry_live in Htake as (_ & inp & Hi & Hlive & _).
      destruct (not_exhausted_cons inp Hlive) as (r & rest & Hrest).
      rewrite (switch_ok o e (release o s) out1 inp r rest) by done.
      cbn [fst snd]. rewrite release_inputs in Hi. split.
      + by eapply replay_pull_switch.
      + eapply replaying_switch; try done.
        * by rewrite release_replay.
        * by rewrite release_inputs.
    - destruct Hspec as [-> Hnone]. cbn [fst snd].
      rewrite <- (release_replay o s), set_replay_same.
      split; [|done]. apply replay_pull_wait. by left.
    - destruct Hspec as [-> Hbusy]. cbn [fst snd].
      rewrite <- (release_replay o s), set_replay_same.
      split; [|done]. apply replay_pull_wait. by right.
    - exfalso. destruct Hspec as (e & Hin & Hcause).
      rewrite <- (release_replay o s) in Hin.
      destruct (replaying_entry_live log _ e Hrp1 Hin) as (inp & Hi & Hlive).
      destruct Hcause as [Hnone|(inp' & Hi' & Hex)]; congruence. }
  destruct (all_exhausted s) eqn:Hall.
  { cbn [fst snd]. split; [by constructor|].
    eapply replaying_release; [done..|].
    intros i Hi. destruct (rp_limit log s Hrp o out i Ho Hi) as (d & Hlim & Hle).
    pose proof (wf_valid _ _ _ Hwf o out i Ho Hi) as Hvalid.
    apply lookup_lt_is_Some in Hvalid as [inp Hinp].
    pose proof (rp_owed log s Hrp i inp Hinp) as Howed.
    rewrite (all_exhausted_lookup s i inp Hall Hinp) in Howed.
    pose proof (sum_list_with_lookup
      (fun out => if holds i out
                  then default 0 (out_run_limit out) - out_run_records out
                  else 0) (st_outputs s) o out Ho) as Hsum.
    cbn beta in Hsum. rewrite (holds_true i out), Hlim in Hsum by done.
    unfold owed in Howed. cbn in *. rewrite Hlim. f_equal. lia. }
  unfold pull_replay. destruct (out_input out) as [i|] eqn:Hheld;
    [|by apply Hnext].
  destruct (rp_limit log s Hrp o out i Ho Hheld) as (d & Hlim & Hle).
  unfold run_complete. rewrite Hlim.
  destruct (d <=? out_run_records out) eqn:Hcmp.
  { apply Nat.leb_le in Hcmp. apply Hnext. intros i' _. rewrite Hlim.
    f_equal. lia. }
  apply Nat.leb_gt in Hcmp.
  pose proof (wf_valid _ _ _ Hwf o out i Ho Hheld) as Hvalid.
  apply lookup_lt_is_Some in Hvalid as [inp Hinp]. rewrite Hinp.
  rewrite (replaying_run_live log o i s out inp d) by done.
  destruct (not_exhausted_cons inp) as (r & rest & Hrest).
  { by eapply replaying_run_live. }
  erewrite emit_ok by done. cbn [fst snd]. split.
  - by eapply replay_pull_emit.
  - by eapply replaying_emit.
Qed.

Lemma replaying_wf_run log T pulls :
  forall s, wf T s -> replaying log s ->
            wf T (run pulls s).2 /\ replaying log (run pulls s).2.
Proof.
  induction pulls as [|o pulls IH]; intros s Hwf Hrp; [done|].
  rewrite run_cons. cbn [snd]. apply IH.
  - by apply wf_pull.
  - by destruct (replaying_pull_cases log T o s).
Qed.

Lemma emit_outputs_length o j s :
  length (st_outputs (emit o j s).2) = length (st_outputs s).
Proof.
  unfold emit. repeat case_match; simpl_state; cbn [snd]; simpl_state;
    by rewrite ?length_insert.
Qed.

Lemma assign_outputs_length o j lim s :
  length (st_outputs (assign o j lim s)) = length (st_outputs s).
Proof.
  unfold assign. repeat case_match; simpl_state; by rewrite ?length_insert.
Qed.

Lemma next_run_outputs_length b o s :
  length (st_outputs (next_run b o s).2) = length (st_outputs s).
Proof.
  unfold next_run. repeat case_match; cbn [snd]; simpl_state;
    rewrite ?emit_outputs_length, ?assign_outputs_length; simpl_state;
    by rewrite release_outputs_length.
Qed.

Lemma pull_outputs_length o s :
  length (st_outputs (pull o s).2) = length (st_outputs s).
Proof.
  unfold pull, pull_free, pull_replay.
  repeat case_match; cbn [snd]; simpl_state;
    rewrite ?next_run_outputs_length, ?emit_outputs_length,
      ?assign_outputs_length, ?release_outputs_length; done.
Qed.

(** Under recorded replay of a log that fits the inputs, a pull fails only
    when its output does not exist. *)
Lemma replaying_no_error log T pulls :
  forall s, wf T s -> replaying log s ->
            Forall (fun ev => forall msg, pe_result ev = PULL_ERROR msg ->
                                          length (st_outputs s) <= pe_output ev)
                   (run pulls s).1.
Proof.
  induction pulls as [|o pulls IH]; intros s Hwf Hrp; [by constructor|].
  rewrite run_cons. cbn [fst snd].
  destruct (replaying_pull_cases log T o s Hwf Hrp) as [Hcase Hrp'].
  constructor.
  - cbn. intros msg Hres. rewrite Hres in Hcase. inversion Hcase.
    by apply lookup_ge_None.
  - specialize (IH (pull o s).2 (wf_pull o T s Hwf) Hrp').
    by rewrite pull_outputs_length in IH.
Qed.

Lemma owed_idle i outs :
  Forall (fun out => out_input out = None) outs -> owed i outs = 0.
Proof.
  induction 1 as [|out outs Hout _ IH]; [done|].
  unfold owed in *. cbn [sum_list_with]. by rewrite holds_none, IH.
Qed.

Lemma assigned_idle s j :
  Forall (fun out => out_input out = None) (st_outputs s) -> assigned s j = false.
Proof.
  unfold assigned. induction 1 as [|out outs Hout _ IH]; [done|].
  cbn. rewrite IH, Hout. by rewrite bool_decide_eq_false_2.
Qed.

Lemma current_run_idle o s out :
  st_outputs s !! o = Some out -> out_input out = None -> current_run o s = [].
Proof. intros Ho Hi. unfold current_run. by rewrite Ho, Hi. Qed.

Lemma granted_zero_nil M N l :
  Forall (fun e => entry_ok M N e = true) l ->
  (forall i, i < N -> granted i l = 0) -> l = [].
Proof.
  intros Hok Hz. destruct l as [|e l]; [done|]. exfalso.
  inversion Hok as [|? ? He _]; subst. apply entry_ok_iff in He as (_ & Hv & Hd).
  specialize (Hz (se_input e) Hv). unfold granted in Hz. cbn in Hz.
  rewrite Nat.eqb_refl in Hz. lia.
Qed.

(** Once no input has a record left, what the replay has produced on each
    output is what the log holds for that output. *)
Lemma replaying_complete log T s o :
  wf T s -> replaying log s -> all_exhausted s = true ->
  triples_on o (written s) = triples_on o log.
Proof.
  intros Hwf Hrp Hall.
  destruct Hrp as [Hmode Herr Hreplay Hlimit Howed Hhist].
  assert (Hzero : forall i inp, st_inputs s !! i = Some inp ->
                                granted i (st_replay s) = 0 /\
                                owed i (st_outputs s) = 0).
  { intros i inp Hi. specialize (Howed i inp Hi).
    rewrite (all_exhausted_lookup s i inp Hall Hi) in Howed. cbn in Howed. lia. }
  assert (Hnil : st_replay s = []).
  { eapply granted_zero_nil; [exact Hreplay|].
    intros i Hi. apply lookup_lt_is_Some in Hi as [inp Hi].
    by destruct (Hzero i inp Hi). }
  rewrite <- (Hhist o), Hnil. unfold written.
  rewrite triples_on_app. f_equal. unfold triples_on at 2. cbn.
  rewrite app_nil_r. unfold triples_on. rewrite entries_on_open_runs.
  unfold current_run. destruct (st_outputs s !! o) as [out|] eqn:Ho; [|done].
  destruct (out_input out) as [i|] eqn:Hi; [|done].
  destruct (Hlimit o out i Ho Hi) as (d & Hlim & Hle). rewrite Hlim.
  pose proof (wf_valid _ _ _ Hwf o out i Ho Hi) as Hvalid.
  apply lookup_lt_is_Some in Hvalid as [inp Hinp].
  destruct (Hzero i inp Hinp) as [_ Hz].
  pose proof (sum_list_with_lookup
    (fun out => if holds i out
                then default 0 (out_run_limit out) - out_run_records out
                else 0) (st_outputs s) o out Ho) as Hsum.
  cbn beta in Hsum. rewrite (holds_true i out), Hlim in Hsum by done.
  unfold owed in Hz. cbn in *. unfold triple. cbn.
  do 3 f_equal. lia.
Qed.

(** What the replay has closed so far on an output is an initial part of
    what the log holds for that output. *)
Lemma replaying_prefix log s o :
  replaying log s -> triples_on o (st_log s) `prefix_of` triples_on o log.
Proof.
  intros Hrp. rewrite <- (rp_history log s Hrp o). by eexists.
Qed.

Lemma remaining_consume ins i inp r rest :
  ins !! i = Some inp -> in_rest inp = r :: rest ->
  sum_list_with (fun inp => length (in_rest inp))
                (<[i := consume_input inp r rest]> ins) + 1 =
  sum_list_with (fun inp => length (in_rest inp)) ins.
Proof.
  intros Hi Hrest.
  pose proof (sum_list_with_insert (fun inp => length (in_rest inp)) ins i
                (consume_input inp r rest) inp Hi) as Hsum.
  cbn beta in Hsum. rewrite Hrest in Hsum. cbn in Hsum. lia.
Qed.

Lemma holding_insert outs o out out' :
  outs !! o = Some out ->
  sum_list_with (fun out => if is_set (out_input out) then 1 else 0)
                (<[o := out']> outs) +
  (if is_set (out_input out) then 1 else 0) =
  sum_list_with (fun out => if is_set (out_input out) then 1 else 0) outs +
  (if is_set (out_input out') then 1 else 0).
Proof.
  intros Ho.
  exact (sum_list_with_insert
           (fun out => if is_set (out_input out) then 1 else 0)
           outs o out' out Ho).
Qed.

Lemma holding_release o s : holding (release o s) <= holding s.
Proof.
  destruct (st_outputs s !! o) as [out|] eqn:Ho;
    [|unfold release; by rewrite Ho].
  destruct (out_input out) as [i|] eqn:Hi;
    [|by rewrite (release_idle o s out)].
  rewrite (release_held o s out i) by done. unfold holding. simpl_state.
  pose proof (holding_insert (st_outputs s) o out (unassign out) Ho) as H.
  rewrite Hi in H. cbn in H. lia.
Qed.

Lemma holding_release_held o s out i :
  st_outputs s !! o = Some out -> out_input out = Some i ->
  holding (release o s) < holding s.
Proof.
  intros Ho Hi. rewrite (release_held o s out i) by done.
  unfold holding. simpl_state.
  pose proof (holding_insert (st_outputs s) o out (unassign out) Ho) as H.
  rewrite Hi in H. cbn in H. lia.
Qed.

Lemma remaining_release o s : remaining (release o s) = remaining s.
Proof. unfold remaining. by rewrite release_inputs. Qed.

Lemma potential_emit o i s out inp r rest :
  st_outputs s !! o = Some out -> out_input out = Some i ->
  st_inputs s !! i = Some inp -> in_rest inp = r :: rest ->
  potential
    (set_outputs
       (set_inputs s (<[i := consume_input inp r rest]> (st_inputs s)))
       (<[o := count_output out r]> (st_outputs s))) < potential s.
Proof.
  intros Ho Hheld Hi Hrest. unfold potential, remaining, holding. simpl_state.
  pose proof (remaining_consume (st_inputs s) i inp r rest Hi Hrest) as Hrem.
  pose proof (holding_insert (st_outputs s) o out (count_output out r) Ho)
    as Hhold.
  cbn [out_input count_output] in Hhold. lia.
Qed.

Lemma potential_switch o e s out1 inp r rest log' :
  st_outputs (release o s) !! o = Some out1 -> out_input out1 = None ->
  st_inputs s !! se_input e = Some inp -> in_rest inp = r :: rest ->
  potential (switched o e (release o s) out1 inp r rest log') < potential s.
Proof.
  intros Ho Hidle Hi Hrest.
  unfold potential, switched. unfold remaining at 1, holding at 1. simpl_state.
  rewrite release_inputs.
  pose proof (remaining_consume (st_inputs s) _ inp r rest Hi Hrest) as Hrem.
  pose proof (holding_insert (st_outputs (release o s)) o out1
    (count_output (fresh_run (se_input e) (Some (se_duration e)) inp out1) r)
    Ho) as Hhold.
  rewrite Hidle in Hhold. cbn in Hhold.
  pose proof (holding_release o s) as Hrel.
  unfold holding in *. unfold remaining. lia.
Qed.

Lemma not_all_exhausted s :
  all_exhausted s = false ->
  exists i inp, st_inputs s !! i = Some inp /\ input_exhausted inp = false.
Proof.
  unfold all_exhausted. induction (st_inputs s) as [|inp ins IH]; [done|].
  cbn. destruct (input_exhausted inp) eqn:Hex.
  - intros Hrest. destruct (IH Hrest) as (i & inp' & Hi & Hlive).
    by exists (S i), inp'.
  - intros _. by exists 0, inp.
Qed.

Lemma granted_pos_entry i l :
  0 < granted i l -> exists e, e ∈ l /\ se_input e = i.
Proof.
  induction l as [|e l IH]; [cbn; lia|].
  unfold granted in *. cbn [sum_list_with].
  destruct (se_input e =? i)%nat eqn:He.
  - intros _. exists e. split; [by left | by apply Nat.eqb_eq].
  - intros Hpos. destruct IH as (e' & Hin & Hi); [lia|].
    exists e'. split; [by right | done].
Qed.

Lemma entries_on_in o e l : e ∈ l -> se_output e = o -> entries_on o l <> [].
Proof.
  intros Hin He Hnil.
  assert (Hin' : e ∈ entries_on o l).
  { apply list_elem_of_In, List.filter_In. split; [by apply list_elem_of_In|].
    by apply Nat.eqb_eq. }
  rewrite Hnil in Hin'. by apply elem_of_nil in Hin'.
Qed.

(** While an input has a record left, some output's pull makes
    progress. *)
Lemma replaying_progress log T s :
  wf T s -> replaying log s -> all_exhausted s = false ->
  exists o, potential (pull o s).2 < potential s.
Proof.
  intros Hwf Hrp Hall.
  destruct (decide (Exists (fun out => is_Some (out_input out)) (st_outputs s)))
    as [Hex|Hno].
  - (* an output holds an input: its pull emits or gives the input up *)
    apply Exists_exists in Hex as (out & Hin & [i Hi]).
    apply list_elem_of_lookup in Hin as [o Ho]. exists o.
    destruct (replaying_pull_cases log T o s Hwf Hrp) as [Hcase _].
    destruct (pull o s) as [res s']. cbn [fst snd] in *.
    inversion Hcase; subst; try congruence.
    + by eapply potential_emit.
    + by eapply potential_switch.
    + unfold potential. rewrite remaining_release.
      pose proof (holding_release_held o s out i Ho Hi). lia.
  - (* all outputs are idle: the output of an entry for a live input
       takes its next entry *)
    assert (Hidle : Forall (fun out => out_input out = None) (st_outputs s)).
    { apply Forall_forall. intros out Hin.
      destruct (out_input out) as [i|] eqn:Hi; [|done].
      exfalso. apply Hno, Exists_exists. exists out. split; [done|]. eauto. }
    destruct (not_all_exhausted s Hall) as (i & inp & Hi & Hlive).
    pose proof (rp_owed log s Hrp i inp Hi) as Howed.
    rewrite (owed_idle i _ Hidle) in Howed.
    destruct (not_exhausted_cons inp Hlive) as (r & rest & Hrest).
    destruct (granted_pos_entry i (st_replay s)) as (e & He & Hei).
    { rewrite Hrest in Howed. cbn in Howed. lia. }
    exists (se_output e).
    assert (Hlt : se_output e < length (st_outputs s)).
    { pose proof (rp_replay log s Hrp) as Hok. rewrite Forall_forall in Hok.
      specialize (Hok e He). apply entry_ok_iff in Hok. lia. }
    apply lookup_lt_is_Some in Hlt as [out Ho].
    assert (Hout : out_input out = None).
    { rewrite Forall_lookup in Hidle. by eapply Hidle. }
    destruct (replaying_pull_cases log T (se_output e) s Hwf Hrp) as [Hcase _].
    destruct (pull (se_output e) s) as [res s']. cbn [fst snd] in *.
    inversion Hcase as [| | | |Hwait]; subst; try congruence.
    + by eapply potential_switch.
    + exfalso. rewrite (release_idle _ s out Ho Hout) in Hwait.
      destruct Hwait as [Hnone|(e' & _ & Has)].
      * by eapply entries_on_in.
      * by rewrite (assigned_idle s _ Hidle) in Has.
Qed.

Lemma run_app pulls1 pulls2 s :
  (run (pulls1 ++ pulls2) s).2 = (run pulls2 (run pulls1 s).2).2.
Proof.
  revert s. induction pulls1 as [|o pulls1 IH]; intros s; [done|].
  cbn [app]. rewrite !run_cons. cbn [snd]. apply IH.
Qed.

(** Every replay can be brought to its end. *)
Lemma replaying_can_complete log T n :
  forall s, potential s <= n -> wf T s -> replaying log s ->
            exists more, all_exhausted (run more s).2 = true.
Proof.
  induction n as [|n IH]; intros s Hn Hwf Hrp.
  - destruct (all_exhausted s) eqn:Hall; [by exists []|].
    destruct (replaying_progress log T s Hwf Hrp Hall) as [o Ho]. lia.
  - destruct (all_exhausted s) eqn:Hall; [by exists []|].
    destruct (replaying_progress log T s Hwf Hrp Hall) as [o Ho].
    destruct (IH (pull o s).2) as [more Hmore].
    + lia.
    + by apply wf_pull.
    + by destruct (replaying_pull_cases log T o s Hwf Hrp).
    + exists (o :: more). by rewrite run_cons.
Qed.

Lemma init_inr_inv ws cores ops s0 :
  init ws cores ops = inr s0 ->
  (cores <=? 0)%Z = false /\
  existsb (fun w => bool_decide (wl_streams w = [])) ws = false.
Proof.
  unfold init. destruct (cores <=? 0)%Z; [done|].
  destruct (contradictory ops); [done|].
  by destruct (existsb _ ws).
Qed.

Lemma stream_lengths_length ws :
  length (stream_lengths ws) = length (concat (wl_streams <$> ws)).
Proof. unfold stream_lengths. by rewrite length_fmap. Qed.

(** Initialization for the replay of a log that fits the inputs succeeds,
    and the scheduler starts replaying the log. *)
Lemma init_replaying ws cores ops file log :
  (cores <=? 0)%Z = false ->
  existsb (fun w => bool_decide (wl_streams w = [])) ws = false ->
  mapping ops = MAP_AS_PREVIOUSLY ->
  schedule_replay_istream ops = Some file -> is_entries file = Some log ->
  schedule_record_ostream ops = None -> replay_as_traced_istream ops = None ->
  consistent (Z.to_nat cores) (stream_lengths ws) log ->
  exists r0, init ws cores ops = inr r0 /\
             length (st_outputs r0) = Z.to_nat cores /\
             wf (stream_lengths ws) r0 /\ replaying log r0.
Proof.
  intros Hcores Hws Hmode Hfile Hlog Hrec Hat [Hok Hgrant].
  assert (Hinit : init ws cores ops =
    inr {| st_options := ops;
           st_inputs := new_input <$> concat (wl_streams <$> ws);
           st_outputs := replicate (Z.to_nat cores) idle_output;
           st_log := []; st_replay := log; st_error := None |}).
  { unfold init. rewrite Hcores, Hws.
    assert (contradictory ops = false) as ->.
    { unfold contradictory, handles_set. by rewrite Hmode, Hfile, Hrec, Hat. }
    unfold load_replay. rewrite Hmode, Hfile, Hlog. cbn.
    rewrite length_fmap, <- stream_lengths_length.
    assert (forallb (entry_ok (Z.to_nat cores) (length (stream_lengths ws))) log
            = true) as ->; [|done].
    apply forallb_forall. intros e He.
    rewrite Forall_forall in Hok. by apply Hok, list_elem_of_In. }
  eexists. split; [exact Hinit|].
  split; [simpl_state; by rewrite length_replicate|].
  split; [by eapply wf_init|].
  split; simpl_state; try done.
  - by rewrite length_replicate, length_fmap, <- stream_lengths_length.
  - intros o out i Ho Hi. apply lookup_replicate in Ho as [-> _]. done.
  - intros i inp Hi. rewrite list_lookup_fmap in Hi.
    destruct (concat (wl_streams <$> ws) !! i) as [rs|] eqn:Hrs;
      simplify_eq/=.
    rewrite owed_idle.
    + rewrite (Hgrant i (length (rs_records rs))); [lia|].
      unfold stream_lengths. by rewrite list_lookup_fmap, Hrs.
    + apply Forall_forall. intros out Hin.
      by apply elem_of_replicate in Hin as [-> _].
  - intros o. cbn. unfold current_run. simpl_state.
    destruct (replicate (Z.to_nat cores) idle_output !! o) as [out|] eqn:Ho;
      [|done].
    apply lookup_replicate in Ho as [-> _]. done.
Qed.

Lemma run_outputs_length pulls :
  forall s, length (st_outputs (run pulls s).2) = length (st_outputs s).
Proof.
  induction pulls as [|o pulls IH]; intros s; [done|].
  rewrite run_cons. cbn [snd]. by rewrite IH, pull_outputs_length.
Qed.

(** C2: a run is recorded to its end and its log is written; the same
    inputs are then replayed from that log in recorded-replay mode.
    Initialization of the replay succeeds, and for every order in which the
    consumers of the replay enter the scheduler: no pull of an existing
    output fails; on every output the triples (output ordinal, input
    identifier, duration) of the runs closed so far are an initial part of
    the log's triples for that output; the replay can always be continued
    to its end; and at its end the triples it has produced are, output by
    output (the log is totally ordered per output), those of the log.
    Hence any two replays of the log carried to their ends produce the same
    triples. *)
Theorem replay_reproduces_the_recorded_schedule
    (ws : list input_workload_t) (cores : Z)
    (ops1 ops2 : scheduler_options_t) (s0 : state) (pulls1 : list nat)
    (log : list schedule_entry) (file : istream_t schedule_entry) :
  init ws cores ops1 = inr s0 ->
  all_exhausted (run pulls1 s0).2 = true ->
  write_recorded_schedule (run pulls1 s0).2 = (STATUS_SUCCESS, log) ->
  mapping ops2 = MAP_AS_PREVIOUSLY ->
  schedule_replay_istream ops2 = Some file ->
  is_entries file = Some log ->
  schedule_record_ostream ops2 = None ->
  replay_as_traced_istream ops2 = None ->
  exists r0,
    init ws cores ops2 = inr r0 /\
    (forall pulls2,
        let r := (run pulls2 r0).2 in
        Forall (fun ev => forall msg, pe_result ev = PULL_ERROR msg ->
                                      Z.to_nat cores <= pe_output ev)
               (run pulls2 r0).1 /\
        (forall o, triples_on o (st_log r) `prefix_of` triples_on o log) /\
        (all_exhausted r = true ->
         forall o, triples_on o (written r) = triples_on o log) /\
        (exists more, all_exhausted (run (pulls2 ++ more) r0).2 = true)) /\
    (forall pulls2 pulls2',
        all_exhausted (run pulls2 r0).2 = true ->
        all_exhausted (run pulls2' r0).2 = true ->
        forall o, triples_on o (written (run pulls2 r0).2) =
                  triples_on o (written (run pulls2' r0).2)).
Proof.
  intros Hinit Hall Hwrite Hmode Hfile Hlog Hrec Hat.
  destruct (init_inr_inv _ _ _ _ Hinit) as [Hcores Hws].
  pose proof (wf_init _ _ _ _ Hinit) as Hwf0.
  pose proof (wf_run pulls1 _ _ Hwf0) as Hwf1.
  assert (Hlog1 : log = written (run pulls1 s0).2).
  { unfold write_recorded_schedule in Hwrite.
    destruct (schedule_record_ostream _); by simplify_eq. }
  assert (Hcons : consistent (Z.to_nat cores) (stream_lengths ws) log).
  { pose proof (written_consistent _ _ Hwf1) as Hc.
    rewrite run_outputs_length, run_inputs_length in Hc.
    rewrite (init_inputs _ _ _ _ Hinit), length_fmap in Hc.
    destruct (init_outputs _ _ _ _ Hinit) as (Hout & _).
    rewrite Hout, length_replicate in Hc. rewrite Hlog1.
    apply Hc; [apply stream_lengths_length | done]. }
  destruct (init_replaying ws cores ops2 file log)
    as (r0 & Hinit2 & Hlen & Hwf & Hrp); try done.
  assert (Hend : forall pulls2,
             all_exhausted (run pulls2 r0).2 = true ->
             forall o, triples_on o (written (run pulls2 r0).2) =
                       triples_on o log).
  { intros pulls2 Hdone o.
    destruct (replaying_wf_run log _ pulls2 r0 Hwf Hrp) as [Hwfr Hrpr].
    by eapply replaying_complete. }
  exists r0. split; [done|]. split.
  - intros pulls2 r.
    destruct (replaying_wf_run log _ pulls2 r0 Hwf Hrp) as [Hwfr Hrpr].
    fold r in Hwfr, Hrpr. split; [|split; [|split]].
    + rewrite <- Hlen. by eapply replaying_no_error.
    + intros o. by apply replaying_prefix.
    + by apply Hend.
    + destruct (replaying_can_complete log (stream_lengths ws)
                  (potential r) r) as [more Hmore]; try done.
      exists more. by rewrite run_app.
  - intros pulls2 pulls2' Hdone Hdone' o.
    by rewrite (Hend pulls2 Hdone o), (Hend pulls2' Hdone' o).
Qed.

(** Two inputs on two cores: the run is recorded under one interleaving
    and replayed from its log under another. *)
Lemma replay_reproduces_the_recorded_schedule_witness :
  let ops1 := recording_options DEPENDENCY_IGNORE 2 in
  let s0 := initialized [interleaved_workload] 2 ops1 in
  write_recorded_schedule (run recorded_pulls s0).2 =
    (STATUS_SUCCESS, recorded_log) /\
  exists r0,
    init [interleaved_workload] 2 (replaying_options recorded_log) = inr r0 /\
    forall o,
      triples_on o (written (run replayed_pulls r0).2) =
      triples_on o recorded_log.
Proof.
  intros ops1 s0.
  assert (Hwrite : write_recorded_schedule (run recorded_pulls s0).2 =
                   (STATUS_SUCCESS, recorded_log)) by (vm_compute; reflexivity).
  assert (Hall : all_exhausted (run recorded_pulls s0).2 = true)
    by (vm_compute; reflexivity).
  assert (Hinit : init [interleaved_workload] 2 ops1 = inr s0)
    by (vm_compute; reflexivity).
  split; [exact Hwrite|].
  destruct (replay_reproduces_the_recorded_schedule
              [interleaved_workload] 2 ops1 (replaying_options recorded_log)
              s0 recorded_pulls recorded_log
              {| is_path := "record.zip"; is_entries := Some recorded_log |}
              Hinit Hall Hwrite eq_refl eq_refl eq_refl eq_refl
              eq_refl) as (r0 & Hinit2 & Hruns & _).
  exists r0. split; [exact Hinit2|].
  destruct (Hruns replayed_pulls) as (_ & _ & Hend & _). apply Hend.
  assert (Hr0 : inr r0 = inr (initialized [interleaved_workload] 2
                                (replaying_options recorded_log)) :> string + state).
  { rewrite <- Hinit2. vm_compute. reflexivity. }
  injection Hr0 as ->. vm_compute. reflexivity.
Defined.

(** The replay closes its runs in another order overall, and in the same
    order on each output. *)
Example replayed_log :
  let r0 :=
    initialized [interleaved_workload] 2 (replaying_options recorded_log) in
  triple <$> recorded_log = [(1, 1, 2); (0, 0, 2); (0, 0, 1); (1, 1, 1)]%nat /\
  triple <$> written (run replayed_pulls r0).2 =
  [(1, 1, 2); (1, 1, 1); (0, 0, 2); (0, 0, 1)]%nat.
Proof. split; vm_compute; reflexivity. Qed.


(** The as-traced scenario of the design document: the log grants thread 7
    two records on core 0 and then thread 9 one record; thread 7 has one
    record left.  The scheduler does not fail: it hands over the record of
    thread 7 and proceeds to thread 9. *)
Example as_traced_short_input :
  let s0 :=
    initialized [short_workload] 1
      (as_traced_options
         [{| at_core := 0; at_tid := 7; at_duration := 2;
             at_start_timestamp := 1 |};
          {| at_core := 0; at_tid := 9; at_duration := 1;
             at_start_timestamp := 2 |}]) in
  pe_result <$> (run (replicate 3 0%nat) s0).1 =
  [PULL_RECORD (stamped 7 1); PULL_RECORD (stamped 9 2); PULL_EXHAUSTED].
Proof. reflexivity. Qed.

(** The same log replayed as a recorded schedule is a replay-integrity
    error. *)
Example recorded_short_input :
  let s0 :=
    initialized [short_workload] 1
      (replaying_options
         [{| se_output := 0; se_input := 0; se_start_ordinal := 0;
             se_start_timestamp := 1; se_duration := 2 |};
          {| se_output := 0; se_input := 1; se_start_ordinal := 0;
             se_start_timestamp := 2; se_duration := 1 |}]) in
  pe_result <$> (run (replicate 2 0%nat) s0).1 =
  [PULL_RECORD (stamped 7 1); PULL_ERROR "input exhausted early"].
Proof. reflexivity. Qed.

End SchedulerRuns.

(* ===================================================================== *)
(** * Properties of [simulate_core]                                       *)
(* ===================================================================== *)

Module LauncherCore.
Import Scheduler Launcher.

Lemma compress_cons_same x l : compress (x :: x :: l) = compress (x :: l).
Proof. cbn [compress]. by rewrite bool_decide_eq_true_2. Qed.

Lemma compress_cons_diff x y l :
  x <> y -> compress (x :: y :: l) = x :: compress (y :: l).
Proof. intros Hne. cbn [compress]. by rewrite bool_decide_eq_false_2. Qed.

Lemma compress_head x l : exists l', compress (x :: l) = x :: l'.
Proof.
  revert x. induction l as [|y l IH]; intros x.
  - by exists [].
  - destruct (decide (x = y)) as [->|Hne].
    + rewrite compress_cons_same. apply IH.
    + rewrite compress_cons_diff by done. eauto.
Qed.

Lemma adjacent_distinct_cons x y l :
  x <> y -> adjacent_distinct (y :: l) -> adjacent_distinct (x :: y :: l).
Proof.
  intros Hne Hl [|i] a b Ha Hb; simplify_eq/=; [done|].
  by apply (Hl i).
Qed.

Lemma compress_adjacent_distinct l : adjacent_distinct (compress l).
Proof.
  induction l as [|x l IH]; [by intros []|].
  destruct l as [|y l]; [by intros [|[]]|].
  destruct (decide (x = y)) as [->|Hne].
  - by rewrite compress_cons_same.
  - rewrite compress_cons_diff by done.
    destruct (compress_head y l) as [l' Hl']. rewrite Hl' in IH |- *.
    by apply adjacent_distinct_cons.
Qed.

Lemma ok_tids_ok r rest :
  ok_tids ((STATUS_OK, r) :: rest) = tid r :: ok_tids rest.
Proof. done. Qed.

Lemma ok_tids_wait r rest : ok_tids ((STATUS_WAIT, r) :: rest) = ok_tids rest.
Proof. done. Qed.

(** The body of the loop on a record, once something has been pushed. *)
Lemma loop_iteration_ok_nonempty v ordinal c r :
  thread_sequence c <> [] ->
  loop_iteration v ordinal c STATUS_OK r =
  if bool_decide (tid r <> prev_tid c) then
    ITER_NEXT {| thread_sequence := push_back c r; prev_tid := tid r;
                 record := r |}
              (if (0 <? v)%Z then [LINE_SWITCH ordinal (tid r)] else [])
  else
    ITER_NEXT {| thread_sequence := thread_sequence c; prev_tid := tid r;
                 record := r |} [].
Proof.
  intros Hne. unfold loop_iteration.
  destruct (thread_sequence c) eqn:E; [done|]. by rewrite <- E.
Qed.

Lemma loop_iteration_ok_empty v ordinal c r :
  thread_sequence c = [] ->
  loop_iteration v ordinal c STATUS_OK r =
  ITER_NEXT {| thread_sequence := [tid r]; prev_tid := tid r; record := r |}
            [].
Proof.
  intros He. unfold loop_iteration, push_back. by rewrite He.
Qed.

(** From a state of the loop in which the last element pushed is
    [prev_tid], the thread identifiers still to come are compressed onto
    that element. *)
Lemma simulate_core_sequence_from v ordinal answers :
  forall c init,
    thread_sequence c = init ++ [prev_tid c] ->
    thread_sequence (cr_core (simulate_core v ordinal c answers)) =
    init ++ compress (prev_tid c :: ok_tids answers).
Proof.
  induction answers as [|[status r] rest IH]; intros c init Hseq; [done|].
  destruct status; cbn [simulate_core]; [| done | | done].
  - rewrite loop_iteration_ok_nonempty, ok_tids_ok
      by (rewrite Hseq; by destruct init).
    case_bool_decide as Hne; cbn [with_printed cr_core].
    + rewrite (IH _ (init ++ [prev_tid c]))
        by (unfold push_back; by rewrite Hseq).
      cbn [prev_tid]. rewrite (compress_cons_diff (prev_tid c)) by done.
      by rewrite <- app_assoc.
    + rewrite (IH _ init) by (by rewrite Hne).
      cbn [prev_tid]. by rewrite Hne, compress_cons_same.
  - rewrite ok_tids_wait. cbn [loop_iteration with_yield cr_core].
    by apply IH.
Qed.

Lemma simulate_core_sequence_empty v ordinal answers :
  forall c,
    thread_sequence c = [] ->
    thread_sequence (cr_core (simulate_core v ordinal c answers)) =
    compress (ok_tids answers).
Proof.
  induction answers as [|[status r] rest IH]; intros c He; [done|].
  destruct status; cbn [simulate_core]; [| done | | done].
  - rewrite loop_iteration_ok_empty, ok_tids_ok by done.
    cbn [with_printed cr_core].
    by rewrite (simulate_core_sequence_from _ _ _ _ []).
  - rewrite ok_tids_wait. cbn [loop_iteration with_yield cr_core].
    by apply IH.
Qed.

Lemma compress_snoc l x :
  compress (l ++ [x]) =
  compress l ++ (if bool_decide (last l = Some x) then [] else [x]).
Proof.
  induction l as [|a l IH]; [done|].
  destruct l as [|b l].
  - cbn. destruct (decide (a = x)) as [->|Hne].
    + by rewrite !bool_decide_eq_true_2.
    + rewrite !bool_decide_eq_false_2; [done | congruence | done].
  - change ((a :: b :: l) ++ [x]) with (a :: b :: (l ++ [x])).
    change (last (a :: b :: l)) with (last (b :: l)).
    destruct (decide (a = b)) as [->|Hne].
    + rewrite !compress_cons_same. apply IH.
    + rewrite !compress_cons_diff by done.
      change (b :: l ++ [x]) with ((b :: l) ++ [x]). by rewrite IH.
Qed.

Lemma consumed_snoc_ok pre r :
  consumed pre = pre -> consumed (pre ++ [(STATUS_OK, r)]) = pre ++ [(STATUS_OK, r)].
Proof.
  induction pre as [|[[] r'] pre IH]; intros Hc; simplify_eq/=; try done.
  - by rewrite IH.
  - by rewrite IH.
Qed.

Lemma ok_tids_snoc_ok pre r :
  consumed pre = pre -> ok_tids (pre ++ [(STATUS_OK, r)]) = ok_tids pre ++ [tid r].
Proof.
  intros Hc. unfold ok_tids. rewrite consumed_snoc_ok, Hc by done.
  by rewrite omap_app.
Qed.

Lemma compress_nil_inv l : compress l = [] -> l = [].
Proof.
  destruct l as [|x l]; [done|].
  destruct (compress_head x l) as [l' ->]. done.
Qed.

(** C9: the [thread_sequence] that [simulate_core] builds in the vector the
    launcher hands it.  A thread identifier is appended exactly when the
    sequence is empty or the record's thread identifier differs from the
    one of the record immediately before; no two neighbours of the sequence
    are equal; and the sequence is the run-length compression of the thread
    identifiers of the records received with [STATUS_OK]. *)
Theorem simulate_core_thread_sequence (env : environment) (v : Z)
    (ordinal : nat) (answers : list (stream_status_t * memref_t)) :
  let built l :=
    thread_sequence (cr_core (simulate_core v ordinal (new_core env) l)) in
  (forall pre r,
      consumed pre = pre ->
      built (pre ++ [(STATUS_OK, r)]) =
      built pre ++
      (if bool_decide (built pre = [] \/ last (ok_tids pre) <> Some (tid r))
       then [tid r] else [])) /\
  adjacent_distinct (built answers) /\
  built answers = compress (ok_tids answers).
Proof.
  intros built.
  assert (Hb : forall l, built l = compress (ok_tids l)).
  { intros l. by apply simulate_core_sequence_empty. }
  split; [|split].
  - intros pre r Hc. rewrite !Hb, ok_tids_snoc_ok, compress_snoc by done.
    f_equal. destruct (decide (last (ok_tids pre) = Some (tid r))) as [Hl|Hl].
    + rewrite bool_decide_eq_true_2 by done.
      rewrite bool_decide_eq_false_2; [done|].
      intros [He|Hd]; [|done].
      apply compress_nil_inv in He. by rewrite He in Hl.
    + rewrite bool_decide_eq_false_2 by done.
      rewrite bool_decide_eq_true_2; [done | by right].
  - rewrite Hb. apply compress_adjacent_distinct.
  - apply Hb.
Qed.

(** Two records of thread 7, a wait, then a record of thread 9: the second
    record of thread 7 pushes nothing, the record of thread 9 pushes 9. *)
Lemma simulate_core_thread_sequence_witness :
  let built l :=
    thread_sequence
      (cr_core (simulate_core 1 0 (new_core example_environment) l)) in
  let pre := [(STATUS_OK, example_record 7); (STATUS_OK, example_record 7);
              (STATUS_WAIT, example_record 7)] in
  consumed pre = pre /\
  built (pre ++ [(STATUS_OK, example_record 9)]) = [7; 9]%Z.
Proof.
  intros built pre. split; [reflexivity|].
  destruct (simulate_core_thread_sequence example_environment 1 0 [])
    as [Hstep _].
  specialize (Hstep pre (example_record 9) eq_refl).
  etrans; [exact Hstep|]. reflexivity.
Defined.

(** C7: the consumer loop and the statuses of [next_record].  On
    [STATUS_WAIT] the loop yields once and pulls again, whatever follows;
    a loop that is only ever told to wait neither returns nor reports
    anything; the call returns exactly when [STATUS_EOF] arrives after
    records and waits only; and a failure is reported only for a status
    that is none of [STATUS_OK], [STATUS_WAIT] and [STATUS_EOF]. *)
Theorem simulate_core_wait_and_eof (v : Z) (ordinal : nat)
    (answers : list (stream_status_t * memref_t)) (c : core_t) :
  (forall r rest,
      simulate_core v ordinal c ((STATUS_WAIT, r) :: rest) =
      with_yield (simulate_core v ordinal c rest)) /\
  (forall n r,
      simulate_core v ordinal c (replicate n (STATUS_WAIT, r)) =
      {| cr_outcome := CORE_PULLING; cr_core := c; cr_yields := n;
         cr_stderr := [] |}) /\
  (cr_outcome (simulate_core v ordinal c answers) = CORE_RETURNED <->
   exists pre r post,
     answers = pre ++ (STATUS_EOF, r) :: post /\ consumed pre = pre) /\
  (forall d,
      cr_outcome (simulate_core v ordinal c answers) = CORE_FATAL d ->
      exists pre code r post,
        answers = pre ++ (STATUS_OTHER code, r) :: post /\
        consumed pre = pre /\ d = FAILED_TO_ADVANCE (STATUS_OTHER code)).
Proof.
  split; [done|]. split.
  { intros n r. induction n as [|n IH]; [done|].
    cbn [replicate simulate_core loop_iteration]. by rewrite IH. }
  revert c. induction answers as [|[status r] rest IH]; intros c.
  { split.
    - split; [done|]. intros (pre & r & post & Heq & _). by destruct pre.
    - done. }
  destruct (IH c) as [IHc1 IHc2].
  destruct status; cbn [simulate_core].
  - destruct (loop_iteration v ordinal c STATUS_OK r) as [| |c' printed|]
      eqn:Hit;
      try (unfold loop_iteration in Hit; repeat case_match; done).
    destruct (IH c') as [IH1 IH2]. cbn [with_printed cr_outcome]. split.
    + rewrite IH1. split.
      * intros (pre & r' & post & -> & Hc).
        exists ((STATUS_OK, r) :: pre), r', post. cbn. by rewrite Hc.
      * intros (pre & r' & post & Heq & Hc).
        destruct pre as [|a pre]; simplify_eq/=.
        exists pre, r', post. split; [done|]. by simplify_eq.
    + intros d Hd. destruct (IH2 d Hd) as (pre & code & r' & post & -> & Hc & ->).
      exists ((STATUS_OK, r) :: pre), code, r', post. cbn. by rewrite Hc.
  - cbn. split.
    + split; [|done]. intros _. by exists [], r, rest.
    + done.
  - cbn [loop_iteration with_yield cr_outcome]. split.
    + rewrite IHc1. split.
      * intros (pre & r' & post & -> & Hc).
        exists ((STATUS_WAIT, r) :: pre), r', post. cbn. by rewrite Hc.
      * intros (pre & r' & post & Heq & Hc).
        destruct pre as [|a pre]; simplify_eq/=.
        exists pre, r', post. split; [done|]. by simplify_eq.
    + intros d Hd. destruct (IHc2 d Hd) as (pre & code' & r' & post & -> & Hc & ->).
      exists ((STATUS_WAIT, r) :: pre), code', r', post. cbn. by rewrite Hc.
  - cbn. split.
    + split; [done|]. intros (pre & r' & post & Heq & Hc).
      destruct pre as [|a pre]; simplify_eq/=.
    + intros d [= <-]. by exists [], code, r, rest.
Qed.

(** Three waits, a record, the end of the stream: the call returns after
    three yields. *)
Lemma simulate_core_wait_and_eof_witness :
  let answers :=
    replicate 3 (STATUS_WAIT, example_record 0) ++
    [(STATUS_OK, example_record 7); (STATUS_EOF, example_record 7)] in
  cr_outcome (simulate_core 1 0 (new_core example_environment) answers) =
  CORE_RETURNED.
Proof.
  intros answers.
  apply (simulate_core_wait_and_eof 1 0 answers
           (new_core example_environment)).
  exists (replicate 3 (STATUS_WAIT, example_record 0) ++
          [(STATUS_OK, example_record 7)]), (example_record 7), [].
  split; reflexivity.
Defined.

End LauncherCore.

(* ===================================================================== *)
(** * Properties of [_tmain]                                              *)
(* ===================================================================== *)

Module LauncherMain.
Import Scheduler Launcher.

(** C5: for every combination of the three file options the options passed
    to [init] have at most one of the three stream handles set, so exactly
    one of the four persistence modes is active; and initialization fails
    on a self-contradictory configuration, such as one with both a record
    and a replay stream. *)
Theorem build_sched_ops_one_persistence_mode (env : environment)
    (o : options) :
  (handles_set (build_sched_ops env o) <= 1)%nat /\
  (exists m,
      active (build_sched_ops env o) m = true /\
      forall m', active (build_sched_ops env o) m' = true -> m' = m) /\
  (forall ws cores ops,
      contradictory ops = true -> exists msg, init ws cores ops = inl msg) /\
  (forall ws cores ops,
      is_set (schedule_record_ostream ops) = true ->
      is_set (schedule_replay_istream ops) = true ->
      exists msg, init ws cores ops = inl msg).
Proof.
  assert (Hc : forall ws cores ops,
             contradictory ops = true ->
             exists msg, init ws cores ops = inl msg).
  { intros ws cores ops Hc. unfold init. rewrite Hc.
    destruct (cores <=? 0)%Z; eauto. }
  split; [|split; [|split]].
  - unfold build_sched_ops.
    destruct (HAS_ZIP env), (empty (record_file o)), (empty (replay_file o)),
      (empty (cpu_schedule_file o)); cbn; lia.
  - unfold build_sched_ops.
    destruct (HAS_ZIP env), (empty (record_file o)), (empty (replay_file o)),
      (empty (cpu_schedule_file o)); cbn;
      first [ by exists NO_PERSISTENCE; split; [done|]; intros []
            | by exists RECORDING; split; [done|]; intros []
            | by exists REPLAYING_RECORDED; split; [done|]; intros []
            | by exists REPLAYING_AS_TRACED; split; [done|]; intros [] ].
  - exact Hc.
  - intros ws cores ops Hrec Hrep. apply Hc. unfold contradictory, handles_set.
    rewrite Hrec, Hrep. by destruct (is_set (replay_as_traced_istream ops)).
Qed.

(** Both a record and a replay stream: [init] fails, whatever the inputs
    and the number of cores. *)
Lemma build_sched_ops_one_persistence_mode_witness :
  exists msg,
    init [] 4
      (with_record_ostream
         (build_sched_ops example_environment replay_options)
         (Some {| os_path := "record.zip" |})) = inl msg.
Proof.
  apply (build_sched_ops_one_persistence_mode example_environment
           replay_options); reflexivity.
Defined.




Section Process.
Context {S : Type} `{!scheduler_api S}.
Variable env : environment.

(** Once the process is gone, no thread takes a step. *)
Lemma step_exited a (p : process S) code :
  p_pc p = PC_EXITED code -> step env a p = p.
Proof.
  intros Hpc. destruct a; cbn; unfold main_step, core_step; by rewrite Hpc.
Qed.

Lemma run_process_exited l (p : process S) code :
  p_pc p = PC_EXITED code -> run_process env l p = p.
Proof.
  intros Hpc. unfold run_process. induction l as [|a l IH]; [done|].
  cbn. by rewrite (step_exited _ _ code).
Qed.

Lemma no_write_app l1 l2 : no_write l1 -> no_write l2 -> no_write (l1 ++ l2).
Proof. apply Forall_app_2. Qed.

Lemma no_write_stderr lines : no_write (EV_STDERR <$> lines).
Proof. apply Forall_fmap, Forall_true. done. Qed.

Lemma no_pull_stderr lines : no_pull (EV_STDERR <$> lines).
Proof. apply Forall_fmap, Forall_true. done. Qed.

Lemma no_write_print_schedules (p : process S) : no_write (print_schedules p).
Proof.
  unfold print_schedules, no_write. apply Forall_forall.
  intros e He. apply list_elem_of_lookup in He as [i Hi].
  rewrite list_lookup_imap in Hi.
  destruct (p_threads p !! i); by simplify_eq/=.
Qed.

Lemma joined_app n l1 l2 : joined n l1 -> joined n (l1 ++ l2).
Proof. intros Hj i Hi. apply elem_of_app. left. by apply Hj. Qed.

Lemma joined_next k l : joined k l -> joined (Datatypes.S k) (l ++ [EV_JOIN k]).
Proof.
  intros Hj i Hi. apply elem_of_app.
  destruct (decide (i = k)) as [->|Hne].
  - right. apply list_elem_of_singleton. done.
  - left. apply Hj. lia.
Qed.

Lemma joined_le n m l : (n <= m)%nat -> joined m l -> joined n l.
Proof. intros Hle Hj i Hi. apply Hj. lia. Qed.

Lemma spawns_bounded_app n l1 l2 :
  spawns_bounded n l1 ->
  (forall i, EV_SPAWN i ∈ l2 -> (i < n)%nat) ->
  spawns_bounded n (l1 ++ l2).
Proof.
  intros H1 H2 i Hi. apply elem_of_app in Hi as [Hi|Hi]; eauto.
Qed.

Lemma not_spawn_in l i :
  Forall (fun e => match e with EV_SPAWN _ => False | _ => True end) l ->
  EV_SPAWN i ∈ l -> False.
Proof.
  intros Hall Hin. rewrite Forall_forall in Hall. by apply Hall in Hin.
Qed.

Lemma quiet_no_write evs : quiet evs -> no_write evs.
Proof. intros Hq. eapply Forall_impl; [done|]. by intros []. Qed.

Lemma quiet_no_spawn evs i : quiet evs -> EV_SPAWN i ∈ evs -> False.
Proof.
  intros Hq Hin. unfold quiet in Hq. rewrite Forall_forall in Hq.
  by apply Hq in Hin.
Qed.

Lemma quiet_stderr lines : quiet (EV_STDERR <$> lines).
Proof. apply Forall_fmap, Forall_true. done. Qed.

Lemma main_inv_quiet (p : process S) :
  quiet (p_events p) ->
  match p_pc p with PC_JOIN _ => False | _ => True end ->
  main_inv env p.
Proof.
  intros Hq Hpc. split.
  - intros i Hi. exfalso. by apply (quiet_no_spawn _ i Hq).
  - apply quiet_no_write in Hq. destruct (p_pc p); [done|done|by left].
Qed.

Lemma main_inv_startup : main_inv env (startup env).
Proof.
  unfold startup.
  destruct (convert_args env) as [sc|].
  { apply main_inv_quiet; [by repeat constructor | done]. }
  destruct (parse_argv env) as [err|o].
  { apply main_inv_quiet; [by repeat constructor | done]. }
  destruct (empty (trace_dir o)).
  { apply main_inv_quiet; [by repeat constructor | done]. }
  destruct (sched_init _ _ _ _) as [status sch].
  case_bool_decide; (apply main_inv_quiet; [by repeat constructor | done]).
Qed.

(** A step of a consumer adds quiet events, keeps the vector's length, and
    leaves the main thread where it is or ends the process. *)
Lemma main_inv_quiet_step (p p' : process S) evs :
  main_inv env p ->
  match p_pc p with PC_EXITED _ => False | _ => True end ->
  length (p_threads p') = length (p_threads p) ->
  p_events p' = p_events p ++ evs ->
  quiet evs ->
  (p_pc p' = p_pc p \/ exists code, p_pc p' = PC_EXITED code) ->
  main_inv env p'.
Proof.
  intros [Hsp Hinv] Hlive Hlen Hev Hq Hpc. split.
  - rewrite Hlen, Hev. apply spawns_bounded_app; [done|].
    intros i Hi. exfalso. by apply (quiet_no_spawn evs i).
  - assert (Hnw : no_write (p_events p')).
    { rewrite Hev. apply no_write_app; [|by apply quiet_no_write].
      destruct (p_pc p); [exact Hinv | exact (proj1 Hinv) | done]. }
    destruct Hpc as [Hpc|[code Hpc]]; rewrite Hpc; [|by left].
    destruct (p_pc p) as [k|k|code]; [done| |done].
    split; [done|]. rewrite Hev. apply joined_app. exact (proj2 Hinv).
Qed.

Lemma main_inv_core_step i (p : process S) :
  main_inv env p -> main_inv env (core_step i p).
Proof.
  intros Hinv. unfold core_step.
  destruct (spawned (p_pc p) i) eqn:Hspawned; [|done].
  destruct (p_threads p !! i) as [t|] eqn:Ht; [|done].
  destruct (th_finished t); [done|].
  destruct (sched_next_record _ _ _) as [[status r] sch].
  assert (Hlive : match p_pc p with PC_EXITED _ => False | _ => True end).
  { by destruct (p_pc p). }
  destruct (loop_iteration _ _ _ _ _) as [| |c printed|d].
  - apply (main_inv_quiet_step p _ [EV_NEXT_RECORD i status]);
      [done | done | cbn; by rewrite length_insert | done
      | by repeat constructor | by left].
  - apply (main_inv_quiet_step p _ [EV_NEXT_RECORD i status; EV_YIELD i]);
      [done | done | cbn; by rewrite length_insert | done
      | by repeat constructor | by left].
  - apply (main_inv_quiet_step p _
             (EV_NEXT_RECORD i status :: (EV_STDERR <$> printed)));
      [done | done | cbn; by rewrite length_insert | done
      | constructor; [done | apply quiet_stderr] | by left].
  - apply (main_inv_quiet_step p _
             (EV_NEXT_RECORD i status :: fatal_error d));
      [done | done | done | done | by repeat constructor
      | right; by exists 1%Z].
Qed.

Lemma main_inv_main_step (p : process S) :
  main_inv env p -> main_inv env (main_step env p).
Proof.
  intros [Hsp Hinv]. unfold main_step.
  destruct (p_pc p) as [k|k|code] eqn:Hpc.
  - case_match eqn:Hlt.
    + apply Nat.ltb_lt in Hlt. split; cbn; rewrite ?Hpc.
      * apply spawns_bounded_app; [done|]. intros i Hi.
        apply list_elem_of_singleton in Hi. by simplify_eq.
      * apply no_write_app; [done | by repeat constructor].
    + split; cbn.
      * rewrite app_nil_r. done.
      * rewrite app_nil_r. split; [done|]. intros i Hi. lia.
  - destruct Hinv as [Hnw Hj]. case_match eqn:Hlt.
    + destruct (thread_finished p k); [|unfold main_inv; by rewrite Hpc].
      split; cbn.
      * apply spawns_bounded_app; [done|]. intros i Hi.
        apply list_elem_of_singleton in Hi. done.
      * split; [apply no_write_app; [done | by repeat constructor]|].
        by apply joined_next.
    + apply Nat.ltb_ge in Hlt. unfold finish.
      assert (Hpre : no_write (p_events p ++ print_schedules p)).
      { apply no_write_app; [done | apply no_write_print_schedules]. }
      assert (Hjn : joined (length (p_threads p))
                      (p_events p ++ print_schedules p)).
      { apply joined_app. by apply (joined_le _ k). }
      assert (Hnsp : forall l i,
                 EV_SPAWN i ∈ print_schedules p ++ l ->
                 Forall (fun e => match e with EV_SPAWN _ => False
                                          | _ => True end) l ->
                 (i < length (p_threads p))%nat).
      { intros l i Hi Hl. exfalso. apply elem_of_app in Hi as [Hi|Hi].
        - unfold print_schedules in Hi.
          apply list_elem_of_lookup in Hi as [j Hjj].
          rewrite list_lookup_imap in Hjj.
          destruct (p_threads p !! j); by simplify_eq/=.
        - by apply (not_spawn_in l i). }
      destruct (HAS_ZIP env && negb (empty (record_file (p_options p))))
        eqn:Hrec.
      * apply andb_true_iff in Hrec as [Hzip Hfile].
        apply negb_true_iff in Hfile.
        destruct (sched_write_recorded_schedule (p_sched p)) as [status sch].
        case_bool_decide.
        -- split; cbn.
           ++ apply spawns_bounded_app; [done|]. intros i Hi.
              apply (Hnsp _ i Hi). by repeat constructor.
           ++ right. eexists (p_events p ++ print_schedules p), _.
              cbn. split; [by rewrite <- app_assoc|].
              split; [done|]. split; [by repeat constructor|].
              split; [by repeat constructor|]. done.
        -- split; cbn.
           ++ apply spawns_bounded_app; [done|]. intros i Hi.
              apply (Hnsp _ i Hi). by repeat constructor.
           ++ right. eexists (p_events p ++ print_schedules p), _.
              cbn. split; [by rewrite <- app_assoc|].
              split; [done|]. split; [by repeat constructor|].
              split; [by repeat constructor|]. done.
      * split; cbn.
        -- apply spawns_bounded_app; [done|]. intros i Hi.
           apply (Hnsp _ i Hi). by repeat constructor.
        -- left. apply no_write_app; [done|].
           apply no_write_app; [apply no_write_print_schedules|].
           by repeat constructor.
  - unfold main_inv. by rewrite Hpc.
Qed.

Lemma main_inv_run interleaving :
  forall p : process S, main_inv env p -> main_inv env (run_process env interleaving p).
Proof.
  unfold run_process.
  induction interleaving as [|a l IH]; intros p Hp; [done|].
  cbn. apply IH. destruct a; cbn.
  - by apply main_inv_main_step.
  - by apply main_inv_core_step.
Qed.

Lemma filter_is_write_no_write l :
  no_write l -> List.filter is_write l = [].
Proof.
  induction 1 as [|e l He _ IH]; [done|]. cbn. by rewrite He.
Qed.

(** A list with one write splits around it in one way only. *)
Lemma split_at_write pre post pre' post' :
  no_write pre -> no_write post ->
  pre ++ EV_WRITE_RECORDED_SCHEDULE :: post =
  pre' ++ EV_WRITE_RECORDED_SCHEDULE :: post' ->
  pre' = pre /\ post' = post.
Proof.
  intros Hpre Hpost. revert pre' Hpre.
  induction pre as [|e pre IH]; intros pre' Hpre Heq.
  - destruct pre' as [|e' pre']; simplify_eq/=; [done|].
    exfalso. unfold no_write in Hpost. rewrite Forall_forall in Hpost.
    assert (Hin : EV_WRITE_RECORDED_SCHEDULE ∈
                  pre' ++ EV_WRITE_RECORDED_SCHEDULE :: post').
    { apply elem_of_app. right. by left. }
    by apply Hpost in Hin.
  - destruct pre' as [|e' pre']; simplify_eq/=.
    + by inversion Hpre.
    + inversion Hpre; subst. destruct (IH pre') as [-> ->]; done.
Qed.

(** C8: in every run of the launcher, under every interleaving of its
    threads and over every scheduler, [write_recorded_schedule] is called at
    most once; and if it is called, then the launcher was built with
    [HAS_ZIP] and given a non-empty record file, every consumer thread that
    was created has been joined before the call, and no stream is pulled
    after it. *)
Theorem write_recorded_schedule_once_after_joins
    (interleaving : list actor) :
  let p := _tmain env interleaving in
  (length (List.filter is_write (p_events p)) <= 1)%nat /\
  (forall pre post,
      p_events p = pre ++ EV_WRITE_RECORDED_SCHEDULE :: post ->
      HAS_ZIP env = true /\
      empty (record_file (p_options p)) = false /\
      (forall i, EV_SPAWN i ∈ p_events p -> EV_JOIN i ∈ pre) /\
      (forall i, (i < length (p_threads p))%nat -> EV_JOIN i ∈ pre) /\
      no_pull post).
Proof.
  intros p.
  assert (Hinv : main_inv env p).
  { apply main_inv_run, main_inv_startup. }
  destruct Hinv as [Hsp Hinv].
  assert (Hcases : no_write (p_events p) \/ wrote_after_joins env p).
  { destruct (p_pc p); [by left | left; exact (proj1 Hinv) | exact Hinv]. }
  clear Hinv. destruct Hcases as [Hnw|Hw].
  - split.
    + rewrite filter_is_write_no_write by done. cbn. lia.
    + intros pre post Heq. exfalso.
      unfold no_write in Hnw. rewrite Forall_forall in Hnw.
      assert (Hin : EV_WRITE_RECORDED_SCHEDULE ∈ p_events p).
      { rewrite Heq. apply elem_of_app. right. by left. }
      by apply Hnw in Hin.
  - destruct Hw as (pre & post & Heq & Hpre & Hpost & Hpull & Hj & Hzip & Hf).
    split.
    + rewrite Heq, List.filter_app. cbn.
      rewrite !filter_is_write_no_write by done. cbn. lia.
    + intros pre' post' Heq'. rewrite Heq in Heq'.
      destruct (split_at_write _ _ _ _ Hpre Hpost Heq') as [-> ->].
      repeat split; try done.
      intros i Hi. apply Hj. by apply Hsp.
Qed.


End Process.

(** A launcher that records: the two threads are joined, then the schedule
    is written, and nothing is pulled after that. *)
Lemma write_recorded_schedule_once_after_joins_witness :
  let p :=
    @_tmain scripted (scripted_api ending_streams) recording_environment
            run_to_return in
  exists pre post,
    p_events p = pre ++ EV_WRITE_RECORDED_SCHEDULE :: post /\
    EV_JOIN 0 ∈ pre /\ EV_JOIN 1 ∈ pre /\ no_pull post.
Proof.
  intros p. exists (take 10 (p_events p)), (drop 11 (p_events p)).
  assert (Heq : p_events p =
                take 10 (p_events p) ++
                EV_WRITE_RECORDED_SCHEDULE :: drop 11 (p_events p))
    by (vm_compute; reflexivity).
  destruct (@write_recorded_schedule_once_after_joins scripted
              (scripted_api ending_streams) recording_environment
              run_to_return) as [_ Hafter].
  destruct (Hafter _ _ Heq) as (_ & _ & _ & Hjoined & Hquiet).
  split; [exact Heq|]. split; [|split; [|exact Hquiet]].
  - apply (Hjoined 0%nat). vm_compute. lia.
  - apply (Hjoined 1%nat). vm_compute. lia.
Defined.



(** C6: the option range lets num_cores be 0; [initialize] with a core
    count of 0 fails with a configuration error and without a scheduler
    state, hence without any Output Stream; the launcher prints "failed to
    initialize scheduler" with the scheduler's error string and exits with
    code 1, no consumer thread having been created, under every
    interleaving. *)
Theorem init_with_zero_cores (env : environment) (o : options)
    (interleaving : list actor) :
  convert_args env = None ->
  parse_argv env = inr o ->
  empty (trace_dir o) = false ->
  num_cores o = 0%Z ->
  let p := @_tmain scheduler_t model_api env interleaving in
  let sched_inputs :=
    [{| wl_path := trace_dir o;
        wl_streams := read_dir env (trace_dir o) |}] in
  in_range op_num_cores (num_cores o) = true /\
  init sched_inputs (num_cores o) (build_sched_ops env o) =
    inl "core_count must be positive" /\
  sch_state (p_sched p) = None /\
  p_events p =
    [EV_INIT 0 (build_sched_ops env o);
     EV_STDERR (LINE_ERROR
                  (FAILED_TO_INITIALIZE "core_count must be positive"));
     EV_EXIT 1] /\
  p_threads p = [] /\
  p_pc p = PC_EXITED 1.
Proof.
  intros Hargs Hparse Hdir Hcores p sched_inputs.
  assert (Hstart : @startup scheduler_t model_api env =
    {| p_options := o;
       p_sched := {| sch_state := None;
                     sch_error_string := "core_count must be positive";
                     sch_written := None |};
       p_threads := []; p_pc := PC_EXITED 1;
       p_events :=
         [EV_INIT 0 (build_sched_ops env o);
          EV_STDERR (LINE_ERROR
                       (FAILED_TO_INITIALIZE "core_count must be positive"));
          EV_EXIT 1] |}).
  { unfold startup. rewrite Hargs, Hparse, Hdir, Hcores. reflexivity. }
  assert (Hp : p = @startup scheduler_t model_api env).
  { subst p. unfold _tmain. apply (run_process_exited _ _ _ 1).
    by rewrite Hstart. }
  rewrite Hp, Hstart, Hcores. done.
Qed.

Lemma init_with_zero_cores_witness :
  p_pc (@_tmain scheduler_t model_api zero_core_environment
          [MAIN; CORE 0; MAIN]) = PC_EXITED 1.
Proof.
  apply (init_with_zero_cores zero_core_environment zero_core_options
           [MAIN; CORE 0; MAIN]); reflexivity.
Defined.

End LauncherMain.

(* ===================================================================== *)
(** * Termination of the PT data buffer loop                              *)
(* ===================================================================== *)

Module Drpt2traceLoop.
Import Drpt2trace.

Local Open Scope Z_scope.

Lemma wrap64_range z : 0 <= wrap64 z < 2 ^ 64.
Proof. unfold wrap64. apply Z.mod_pos_bound. lia. Qed.

Lemma wrap64_small z : 0 <= z < 2 ^ 64 -> wrap64 z = z.
Proof. unfold wrap64. apply Z.mod_small. Qed.

Lemma wrap64_decompose z : exists k, wrap64 z = z + k * 2 ^ 64.
Proof.
  exists (- (z / 2 ^ 64)). unfold wrap64.
  pose proof (Z.div_mod z (2 ^ 64) ltac:(lia)). lia.
Qed.

Lemma wrap64_congruent a b k : a = b + k * 2 ^ 64 -> wrap64 a = wrap64 b.
Proof. intros ->. unfold wrap64. apply Z_mod_plus_full. Qed.

(** The update of the offset, with every intermediate wrap-around, is the
    single wrap-around of offset + header size - metadata size +
    data_size: the argument words are added and subtracted once each. *)
Lemma next_offset_wrap cur hdr meta ds args :
  wrap64 (cur + wrap64 (wrap64 (hdr + wrap64 args) +
                        wrap64 (wrap64 (ds - meta) - wrap64 args))) =
  wrap64 (cur + (hdr - meta) + ds).
Proof.
  destruct (wrap64_decompose args) as [ka Ha].
  destruct (wrap64_decompose (hdr + wrap64 args)) as [k1 H1].
  destruct (wrap64_decompose (ds - meta)) as [k2 H2].
  destruct (wrap64_decompose (wrap64 (ds - meta) - wrap64 args)) as [k3 H3].
  destruct (wrap64_decompose
              (wrap64 (hdr + wrap64 args) +
               wrap64 (wrap64 (ds - meta) - wrap64 args))) as [k4 H4].
  apply (wrap64_congruent _ _ (k1 + k2 + k3 + k4)).
  rewrite H4, H3, H2, H1. lia.
Qed.

Section Loop.
Context `{pdb_layout_ok}.
Context {D : Type}.
Variable convert : Z -> Z -> D -> bool * D.

(** One pass through the body either returns [FAILURE] or moves the offset
    strictly forward, by the header without its metadata plus the declared
    data size, with no wrap-around. *)
Lemma loop_body_advances buf cur d :
  size buf < 2 ^ 63 ->
  0 <= cur < size buf ->
  match loop_body convert buf cur d with
  | BODY_FAILURE => True
  | BODY_NEXT cur' _ =>
      cur' = cur + (PT_DATA_PDB_HEADER_SIZE - SYSCALL_METADATA_SIZE) +
             pt_data_boundary_data_size
               (entry_at buf cur PDB_HEADER_DATA_BOUNDARY_IDX) /\
      cur < cur' < 2 ^ 64
  end.
Proof.
  intros Hsize Hcur. unfold loop_body.
  destruct (size buf <? wrap64 (cur + PT_DATA_PDB_HEADER_SIZE)); [done|].
  case_bool_decide; [done|].
  destruct (convert _ _ d) as [[] d']; [|done].
  rewrite next_offset_wrap.
  pose proof (data_size_range
                (entry_at buf cur PDB_HEADER_DATA_BOUNDARY_IDX)) as Hds.
  pose proof data_size_bits_range as Hbits.
  pose proof metadata_in_header as Hmeta.
  pose proof header_small as Hhdr.
  assert (2 ^ pt_data_boundary_data_size_bits <= 2 ^ 62)
    by (apply Z.pow_le_mono_r; lia).
  rewrite wrap64_small by lia. lia.
Qed.

(** With fuel for every byte between the offset and the end of the buffer
    the loop does not run out of fuel. *)
Lemma pdb_loop_enough_fuel buf fuel :
  size buf < 2 ^ 63 ->
  forall cur d,
    0 <= cur ->
    size buf - cur <= Z.of_nat fuel ->
    pdb_loop convert fuel buf cur d <> LOOP_OUT_OF_FUEL.
Proof.
  intros Hsize. induction fuel as [|fuel IH]; intros cur d Hcur Hfuel.
  - cbn. destruct (cur <? size buf) eqn:Hlt; [|done].
    apply Z.ltb_lt in Hlt. lia.
  - cbn. destruct (cur <? size buf) eqn:Hlt; [|done].
    apply Z.ltb_lt in Hlt.
    pose proof (loop_body_advances buf cur d Hsize ltac:(lia)) as Hadv.
    destruct (loop_body convert buf cur d) as [|cur' d']; [done|].
    apply IH; lia.
Qed.

(** Fuel beyond what the loop uses changes nothing. *)
Lemma pdb_loop_more_fuel buf fuel :
  forall cur d fuel',
    (fuel <= fuel')%nat ->
    pdb_loop convert fuel buf cur d <> LOOP_OUT_OF_FUEL ->
    pdb_loop convert fuel' buf cur d = pdb_loop convert fuel buf cur d.
Proof.
  induction fuel as [|fuel IH]; intros cur d fuel' Hle Hres.
  - cbn in Hres. destruct (cur <? size buf) eqn:Hlt; [done|].
    destruct fuel'; cbn; by rewrite Hlt.
  - destruct fuel' as [|fuel']; [lia|]. cbn in *.
    destruct (cur <? size buf); [|done].
    destruct (loop_body convert buf cur d) as [|cur' d']; [done|].
    apply IH; [lia | done].
Qed.

Lemma iterations_bound buf fuel :
  size buf < 2 ^ 63 ->
  forall cur d,
    0 <= cur ->
    Z.of_nat (iterations convert fuel buf cur d) <= Z.max 0 (size buf - cur).
Proof.
  intros Hsize. induction fuel as [|fuel IH]; intros cur d Hcur.
  - cbn. destruct (cur <? size buf); lia.
  - cbn. destruct (cur <? size buf) eqn:Hlt; [|lia].
    apply Z.ltb_lt in Hlt.
    pose proof (loop_body_advances buf cur d Hsize ltac:(lia)) as Hadv.
    destruct (loop_body convert buf cur d) as [|cur' d']; [lia|].
    specialize (IH cur' d' ltac:(lia)). lia.
Qed.

Lemma initial_offset_range buf : 0 <= initial_offset buf < 2 ^ 64.
Proof. apply wrap64_range. Qed.

(** C10: for every buffer (its size is a file size, below 2^63), every
    initialization and every answer of the converter: each pass through
    the body of the loop returns [FAILURE] or moves
    [cur_pdb_header_offset] strictly forward, also when the declared
    [data_size] makes [pt_data_size] wrap around; from every offset the
    loop performs at most as many iterations as there are bytes between the
    offset and the end of the buffer; and the DRMEMTRACE branch of [main],
    given fuel for one iteration per byte, comes to an end, by leaving the
    loop or by returning [FAILURE], with the result it has for any larger
    fuel. *)
Theorem pdb_loop_terminates (init : Z -> option D) (buf : list byte) :
  size buf < 2 ^ 63 ->
  (forall cur d,
      0 <= cur < size buf ->
      match loop_body convert buf cur d with
      | BODY_FAILURE => True
      | BODY_NEXT cur' _ => cur < cur' < 2 ^ 64
      end) /\
  (forall fuel cur d,
      0 <= cur ->
      Z.of_nat (iterations convert fuel buf cur d) <=
      Z.max 0 (size buf - cur)) /\
  (forall fuel,
      (length buf <= fuel)%nat ->
      drmemtrace convert init fuel buf <> LOOP_OUT_OF_FUEL /\
      drmemtrace convert init fuel buf =
      drmemtrace convert init (length buf) buf).
Proof.
  intros Hsize. split; [|split].
  - intros cur d Hcur.
    pose proof (loop_body_advances buf cur d Hsize Hcur) as Hadv.
    destruct (loop_body convert buf cur d); [done|]. lia.
  - intros fuel cur d Hcur. by apply iterations_bound.
  - intros fuel Hfuel. unfold drmemtrace.
    case_bool_decide; [done|].
    destruct (init PT_METADATA_PDB_DATA_OFFSET) as [d|]; [|done].
    pose proof (initial_offset_range buf) as Hcur.
    assert (Hend : pdb_loop convert (length buf) buf (initial_offset buf) d
                   <> LOOP_OUT_OF_FUEL).
    { apply pdb_loop_enough_fuel; [done | lia |]. unfold size. lia. }
    rewrite (pdb_loop_more_fuel buf (length buf)) by done. done.
Qed.

End Loop.

Lemma le_decode_range bytes : 0 <= le_decode bytes.
Proof.
  induction bytes as [|b rest IH]; cbn [le_decode]; [lia|].
  pose proof (N2Z.is_nonneg (Byte.to_N b)). lia.
Qed.

#[local] Instance example_layout_ok : @pdb_layout_ok example_layout.
Proof.
  split; cbn.
  - intros bytes. apply Z.mod_pos_bound. lia.
  - lia.
  - lia.
  - lia.
Qed.

(** On the example file the first pass computes a [pt_data_size] that
    wraps around and still moves the offset from 16 to 40; the second pass
    finds no room for a header and returns [FAILURE]. *)
Lemma pdb_loop_terminates_witness :
  let cur := @initial_offset example_layout underflow_file in
  cur = 16 /\
  @loop_body example_layout nat accept_all underflow_file cur 0%nat =
    BODY_NEXT 40 1%nat /\
  @drmemtrace example_layout nat accept_all (fun _ => Some 0%nat)
              (length underflow_file) underflow_file = LOOP_FAILURE /\
  @drmemtrace example_layout nat accept_all (fun _ => Some 0%nat) 1000
              underflow_file <> LOOP_OUT_OF_FUEL.
Proof.
  intros cur.
  split; [reflexivity|]. split; [vm_compute; reflexivity|].
  split; [vm_compute; reflexivity|].
  apply (@pdb_loop_terminates example_layout example_layout_ok nat accept_all
           (fun _ => Some 0%nat) underflow_file); [reflexivity|].
  vm_compute. lia.
Defined.

End Drpt2traceLoop.
